(** * video_chapterizer: the keyframe collector, boundary selector and
      chapter renderer of [chapterizer.ts]

    A shallow embedding of the three classes of [src/chapterizer.ts]
    ([KeyFrame], [KeyFrameCollection], [KeyFrameCollector]) together with
    the fragment of ECMAScript they rely on: backtracking regular
    expressions with greedy quantifiers and capture groups,
    [String.prototype.match] / [String.prototype.replace] for a non-global
    pattern, [parseInt] on a digit capture, template-literal rendering of a
    number, [Array.prototype.indexOf], and a settle-once promise.

    Conventions.
    - Text is [list ascii]; the analysis process writes plain ASCII, on
      which [TextDecoder.decode] is the identity, so a chunk is given as
      the text it decodes to.
    - ECMAScript numbers are binary64.  The only constructor of
      [KeyFrame] fills both fields with [parseInt] of a [\d+] capture, so a
      field is never negative and never NaN: it is an integer that binary64
      holds, or +Infinity.  Such a number is given as an [N]: a finite one
      by its value, +Infinity by [Infinity] = 2^1024, the first power of two
      past the finite range.  [Number_of_N] rounds an integer to the number
      that stands for it and [Number_toString] writes a number as a
      template literal does; both are exact below 2^53
      ([Number_of_N_safe], [Number_toString_safe]).
    - Differences are taken in [Z], as the subtraction of two such numbers
      may be negative.  The source compares the rounded difference with
      180, which is the comparison of the difference itself
      ([rounded_gap_test]); Infinity - Infinity is NaN, which is not
      greater than 180, as the 0 of the embedding is not.
    - Arrays hold references: a [KeyFrame] carries the identity [oid] of
      the object it stands for, and [indexOf] compares identities only. *)

From Stdlib Require Import Ascii String NArith ZArith Lia Bool Arith List Sorted.
Import ListNotations.

Set Implicit Arguments.

(* ================================================================== *)
(** ** Text *)

Definition text := list ascii.

Definition str (s : string) : text := list_ascii_of_string s.
Arguments str : simpl never.

(** The line feed written [\n] in the source. *)
Definition LF : ascii := "010"%char.

Fixpoint text_eqb (a b : text) : bool :=
  match a, b with
  | [], [] => true
  | x :: a', y :: b' => Ascii.eqb x y && text_eqb a' b'
  | _, _ => false
  end.

(** [starts_with l s]: [l] is a prefix of [s]. *)
Fixpoint starts_with (l s : text) : bool :=
  match l, s with
  | [], _ => true
  | x :: l', y :: s' => Ascii.eqb x y && starts_with l' s'
  | _ :: _, [] => false
  end.

(** [occurs l s]: the literal [l] occurs somewhere in [s]. *)
Fixpoint occurs (l s : text) : bool :=
  starts_with l s ||
  match s with
  | [] => false
  | _ :: s' => occurs l s'
  end.

Definition is_digit (c : ascii) : bool :=
  let n := N_of_ascii c in (48 <=? n)%N && (n <=? 57)%N.

Definition digit_value (c : ascii) : N := (N_of_ascii c - 48)%N.

Definition digit_char (d : N) : ascii := ascii_of_N (48 + d).

(* ================================================================== *)
(** ** The regular-expression fragment

    Both patterns of the source are sequences of literal characters,
    [.] (with the [s] flag: any character), [\d], a greedy [*] or [+] on one
    of these, and numbered capture groups.  The matcher follows the
    continuation semantics of the ECMAScript specification: a pattern is
    run on a state with a continuation for what follows it, and a greedy
    quantifier tries the longest repetition first and gives characters back
    one at a time while the continuation fails. *)

Inductive CharSet : Type :=
| CsAny                      (* .  under the s (dotAll) flag *)
| CsDigit                    (* \d *)
| CsChar (c : ascii).        (* a literal character *)

Definition cs_match (cs : CharSet) (c : ascii) : bool :=
  match cs with
  | CsAny => true
  | CsDigit => is_digit c
  | CsChar d => Ascii.eqb d c
  end.

Inductive Regex : Type :=
| REmpty
| RChar (cs : CharSet)
| RStar (cs : CharSet)                 (* greedy cs* *)
| RSeq (r1 r2 : Regex)
| RGroup (n : nat) (r : Regex).        (* the n-th parenthesis, n >= 1 *)

Definition RPlus (cs : CharSet) : Regex := RSeq (RChar cs) (RStar cs).

Fixpoint RLit (l : text) : Regex :=
  match l with
  | [] => REmpty
  | c :: l' => RSeq (RChar (CsChar c)) (RLit l')
  end.

(** A match state: the input still to be read and the captures so far
    ([None] is [undefined]); slot 0 is reserved for the whole match. *)
Record MatchState : Type := mkState {
  rest : text;
  caps : list (option text)
}.

Fixpoint set_cap (n : nat) (v : text) (cs : list (option text))
  : list (option text) :=
  match n, cs with
  | _, [] => []
  | O, _ :: cs' => Some v :: cs'
  | S n', c :: cs' => c :: set_cap n' v cs'
  end.

(** The text read between two states of one run. *)
Definition consumed (from to : text) : text :=
  firstn (length from - length to) from.

Definition Continuation := MatchState -> option MatchState.

Fixpoint star_matcher (cs : CharSet) (s : text) (c : list (option text))
         (k : Continuation) : option MatchState :=
  match s with
  | [] => k (mkState [] c)
  | a :: s' =>
      if cs_match cs a then
        match star_matcher cs s' c k with
        | Some r => Some r
        | None => k (mkState s c)
        end
      else k (mkState s c)
  end.

Fixpoint matcher (r : Regex) (x : MatchState) (k : Continuation)
  : option MatchState :=
  match r with
  | REmpty => k x
  | RChar cs =>
      match rest x with
      | a :: s' => if cs_match cs a then k (mkState s' (caps x)) else None
      | [] => None
      end
  | RStar cs => star_matcher cs (rest x) (caps x) k
  | RSeq r1 r2 => matcher r1 x (fun y => matcher r2 y k)
  | RGroup n r1 =>
      matcher r1 x
        (fun y => k (mkState (rest y)
                       (set_cap n (consumed (rest x) (rest y)) (caps y))))
  end.

(** One attempt at a fixed start position, for a pattern with [ngroups]
    parentheses. *)
Definition match_here (r : Regex) (ngroups : nat) (s : text)
  : option MatchState :=
  matcher r (mkState s (repeat None (S ngroups))) Some.

(** What a successful search reports: the text before the match, the
    match array (whole match, then the groups) and the text after it. *)
Record Found : Type := mkFound {
  before : text;
  groups : list (option text);
  after : text
}.

(** RegExpBuiltinExec for a pattern without the [g] and [y] flags: start
    positions are tried from the left, the first that matches wins. *)
Fixpoint regexp_exec (r : Regex) (ngroups : nat) (s : text) : option Found :=
  match match_here r ngroups s with
  | Some y =>
      Some (mkFound [] (set_cap 0 (consumed s (rest y)) (caps y)) (rest y))
  | None =>
      match s with
      | [] => None
      | a :: s' =>
          match regexp_exec r ngroups s' with
          | Some f => Some (mkFound (a :: before f) (groups f) (after f))
          | None => None
          end
      end
  end.

(** [s.match(r)]: the match array, or [None] for [null]. *)
Definition String_match (s : text) (r : Regex) (ngroups : nat)
  : option (list (option text)) :=
  option_map groups (regexp_exec r ngroups s).

(** [s.replace(r, repl)] for a replacement without [$] patterns: the first
    match is replaced; without a match the string is returned as it is. *)
Definition String_replace (s : text) (r : Regex) (ngroups : nat) (repl : text)
  : text :=
  match regexp_exec r ngroups s with
  | Some f => before f ++ repl ++ after f
  | None => s
  end.

(* ================================================================== *)
(** ** Numbers *)

(** +Infinity, as an [N]: see the conventions above. *)
Definition Infinity : N := (2 ^ 1024)%N.

(** The number that stands for the integer [v]: [v] rounded to 53
    significant bits, to the nearest such value and on a tie to the one
    with the even significand; +Infinity from 2^1024 - 2^970 on. *)
Definition Number_of_N (v : N) : N :=
  let k := (N.log2 v - 52)%N in             (* bits that do not fit *)
  let q := N.shiftr v k in
  let r := (v - N.shiftl q k)%N in
  let half := N.shiftl 1 (k - 1) in
  let q' := if (half <? r)%N || ((half =? r)%N && N.odd q) then (q + 1)%N
            else q in
  N.min (N.shiftl q' k) Infinity.

(** The same for an integer of either sign, as a difference of two
    numbers is. *)
Definition Number_of_Z (z : Z) : Z :=
  match z with
  | Zneg p => - Z.of_N (Number_of_N (Npos p))
  | _ => Z.of_N (Number_of_N (Z.to_N z))
  end.

(** The value of the leading run of decimal digits. *)
Fixpoint parse_digits (acc : N) (s : text) : N :=
  match s with
  | c :: s' => if is_digit c then parse_digits (10 * acc + digit_value c) s'
               else acc
  | [] => acc
  end.

(** [parseInt] on a capture: the number for the value of the leading run
    of decimal digits.  (White space, a sign or a [0x] prefix cannot occur
    in a [\d+] capture; the empty run, for which the source would get
    [NaN], cannot either, see [KeyFrame_new_inv].  The engine rounds the
    value of the whole run, however long, to the nearest number.) *)
Definition parseInt (s : text) : N := Number_of_N (parse_digits 0 s).

(** The decimal digits of an integer, most significant first. *)
Fixpoint digits_of (fuel : nat) (n : N) (acc : text) : text :=
  match fuel with
  | O => acc
  | S fuel' =>
      let acc' := digit_char (n mod 10) :: acc in
      if (n <? 10)%N then acc' else digits_of fuel' (n / 10) acc'
  end.

Definition decimal (n : N) : text :=
  digits_of (S (N.to_nat (N.log2 n))) n [].

(** [reads_as x v]: the integer [v] stands for the number [x]. *)
Definition reads_as (x v : N) : bool := (Number_of_N v =? x)%N.

(** Number::toString, the choice of the digits: among the integers that
    stand for [x], one with the fewest significant digits, and of these
    the nearest to [x] (of two equally near, the one with the even last
    digit).  With [k] of the [n] digits of [x] the candidates are the two
    multiples of 10^(n-k) around [x]; [k] goes up from 1. *)
Fixpoint shortest_from (x : N) (n k fuel : nat) : N :=
  match fuel with
  | O => x
  | S fuel' =>
      let p := (10 ^ N.of_nat (n - k))%N in
      let lo := (x / p * p)%N in
      let hi := (lo + p)%N in
      match reads_as x lo, reads_as x hi with
      | true, true =>
          if (x - lo <? hi - x)%N then lo
          else if (hi - x <? x - lo)%N then hi
          else if N.even (x / p) then lo else hi
      | true, false => lo
      | false, true => hi
      | false, false => shortest_from x n (S k) fuel'
      end
  end.

Definition shortest (x : N) : N :=
  let n := length (decimal x) in shortest_from x n 1 n.

(** The digits without the zeros at the end. *)
Fixpoint strip_zeros (ds : text) : text :=
  match ds with
  | [] => []
  | d :: ds' =>
      match strip_zeros ds' with
      | [] => if Ascii.eqb d "0" then [] else [d]
      | t => d :: t
      end
  end.

(** Number::toString from 10^21 on: one digit, the other significant
    digits after a point if there are any, and the exponent. *)
Definition exponential (v : N) : text :=
  let ds := decimal v in
  let e := decimal (N.of_nat (length ds - 1)) in
  match strip_zeros ds with
  | [] => []                                   (* no digit: not reached *)
  | [d] => d :: str "e+" ++ e
  | d :: more => d :: "."%char :: more ++ str "e+" ++ e
  end.

(** Template-literal rendering of a number, Number::toString with radix
    10: below 10^21 the chosen digits and the zeros that follow them,
    from 10^21 on the exponent form; [Infinity] has its name.  (A field is
    never negative, fractional or NaN: no sign, no fraction and no [NaN]
    is ever written.) *)
Definition Number_toString (x : N) : text :=
  if (Infinity <=? x)%N then str "Infinity"
  else
    let v := shortest x in
    if (v <? 10 ^ 21)%N then decimal v else exponential v.

(* ================================================================== *)
(** ** Errors *)

Inductive JsError : Type :=
| Error (message : text)
| TypeError.

Inductive result (A : Type) : Type :=
| Ok (a : A)
| Throw (e : JsError).
Arguments Ok {A} a.
Arguments Throw {A} e.

(* ================================================================== *)
(** ** class KeyFrame *)

Module KeyFrame.

Record t : Type := mk {
  oid : nat;            (* identity of the object *)
  pts_time : N;
  pkt_pos : N
}.

(** [frameRegEX], flags [su]; spaced out here, it reads
      .* pts_time= ( \d+ ) .* pkt_pos= ( \d+ ) .* *)
Definition frameRegEX : Regex :=
  RSeq (RStar CsAny)
 (RSeq (RLit (str "pts_time="))
 (RSeq (RGroup 1 (RPlus CsDigit))
 (RSeq (RStar CsAny)
 (RSeq (RLit (str "pkt_pos="))
 (RSeq (RGroup 2 (RPlus CsDigit))
       (RStar CsAny)))))).

Definition parse_error : JsError := Error (str "couldn't parse framedata").

(** [new KeyFrame(frameData)]; [id] is the identity of the new object. *)
Definition new (id : nat) (frameData : text) : result t :=
  match String_match frameData frameRegEX 2 with
  | None => Throw parse_error
  | Some matches =>
      if length matches <? 3 then Throw parse_error
      else
        match nth 1 matches None, nth 2 matches None with
        | Some m1, Some m2 => Ok (mk id (parseInt m1) (parseInt m2))
        | _, _ => Throw TypeError   (* a group left out: dead, KeyFrame_new_cases *)
        end
  end.

End KeyFrame.

(** [keyFrames.indexOf(frame)]: the first index holding the same object,
    or -1. *)
Fixpoint indexOf_from (i : Z) (keyFrames : list KeyFrame.t) (frame : KeyFrame.t)
  : Z :=
  match keyFrames with
  | [] => (-1)%Z
  | f :: more =>
      if KeyFrame.oid f =? KeyFrame.oid frame then i
      else indexOf_from (i + 1)%Z more frame
  end.

Definition indexOf := indexOf_from 0%Z.

(* ================================================================== *)
(** ** class KeyFrameCollection *)

Module KeyFrameCollection.

Record t : Type := mk { keyFrames : list KeyFrame.t }.

Definition header : text := str ";FFMETADATA1" ++ [LF].

(** One chapter record, as the five appends of either branch write it.
    The number of the title is an array index plus one, below 2^32, where
    a number is written with all its digits ([Number_toString_safe]): it
    is given as [decimal]. *)
Definition chapter (start end_ : N) (number : Z) : text :=
  str "[CHAPTER]" ++ [LF] ++
  str "TIMEBASE=1/1" ++ [LF] ++
  str "START=" ++ Number_toString start ++ [LF] ++
  str "END=" ++ Number_toString end_ ++ [LF] ++
  str "title=Chapter " ++ decimal (Z.to_N number) ++ [LF].

(** The body of the [for ... of] loop, on the pair of its two variables
    [chapterString] and [lastFrame]. *)
Definition render_frame (this : t) (acc : text * option KeyFrame.t)
           (frame : KeyFrame.t) : text * option KeyFrame.t :=
  let (chapterString, lastFrame) := acc in
  match lastFrame with
  | None =>
      (chapterString ++ chapter 0 (KeyFrame.pts_time frame) 1, Some frame)
  | Some last =>
      (chapterString ++
         chapter (KeyFrame.pts_time last) (KeyFrame.pts_time frame)
                 (indexOf (keyFrames this) frame + 1),
       Some frame)
  end.

Definition generateChapterMetadata (this : t) : text :=
  fst (fold_left (render_frame this) (keyFrames this) (header, None)).

End KeyFrameCollection.

(* ================================================================== *)
(** ** class KeyFrameCollector *)

(** The promise made in the constructor.  [resolve] and [reject] settle it
    once; on a settled promise both do nothing. *)
Inductive Promise (A : Type) : Type :=
| Pending
| Fulfilled (value : A)
| Rejected (reason : JsError).
Arguments Pending {A}.
Arguments Fulfilled {A} value.
Arguments Rejected {A} reason.

Definition Promise_resolve {A} (p : Promise A) (v : A) : Promise A :=
  match p with
  | Pending => Fulfilled v
  | _ => p
  end.

Definition Promise_reject {A} (p : Promise A) (e : JsError) : Promise A :=
  match p with
  | Pending => Rejected e
  | _ => p
  end.

(** How a call ended. *)
Inductive outcome : Type :=
| Returned
| Threw (e : JsError).

Module KeyFrameCollector.

Record t : Type := mk {
  stringBuffer : text;
  keyFrames : list KeyFrame.t;
  completionPromise : Promise KeyFrameCollection.t
}.

(** [frameRegEx], flags [su]; spaced out here, it reads
      \[FRAME\] ( .* key_frame= ( \d ) .* ) \[\/FRAME\] *)
Definition frameRegEx : Regex :=
  RSeq (RLit (str "[FRAME]"))
 (RSeq (RGroup 1
          (RSeq (RStar CsAny)
          (RSeq (RLit (str "key_frame="))
          (RSeq (RGroup 2 (RChar CsDigit))
                (RStar CsAny)))))
       (RLit (str "[/FRAME]"))).

Definition constructor : t := mk [] [] Pending.

Definition set_stringBuffer (this : t) (b : text) : t :=
  mk b (keyFrames this) (completionPromise this).

Definition push_keyFrame (this : t) (f : KeyFrame.t) : t :=
  mk (stringBuffer this) (keyFrames this ++ [f]) (completionPromise this).

(** The [if] of the loop body.  The objects of one collector are
    numbered as they are made; each one made is pushed, so the next
    number is the length of [keyFrames]. *)
Definition pass_on (this : t) (matches : list (option text)) : result t :=
  match nth 2 matches None with
  | Some flag =>
      if text_eqb flag (str "1") then
        match nth 1 matches None with
        | Some frameData =>
            match KeyFrame.new (length (keyFrames this)) frameData with
            | Ok f => Ok (push_keyFrame this f)
            | Throw e => Throw e
            end
        | None => Throw TypeError      (* undefined.match: never reached *)
        end
      else Ok this
  | None => Ok this
  end.

(** The [while] loop of [write].  [fuel] bounds the number of times the
    condition is evaluated; [None] means it ran out ([scan_total] shows
    that the fuel [write] gives is enough). *)
Fixpoint scan (fuel : nat) (this : t) : option (t * outcome) :=
  match fuel with
  | O => None
  | S fuel' =>
      match String_match (stringBuffer this) frameRegEx 2 with
      | None => Some (this, Returned)
      | Some matches =>
          if negb (length matches =? 3) then Some (this, Returned)
          else
            match pass_on this matches with
            | Throw e => Some (this, Threw e)
            | Ok this' =>
                scan fuel'
                  (set_stringBuffer this'
                     (String_replace (stringBuffer this') frameRegEx 2 []))
            end
      end
  end.

(** [write(chunk, controller)], on the text the chunk decodes to.  The
    progress dot written to stdout for each keyframe is left out. *)
Definition write (this : t) (chunk : text) : option (t * outcome) :=
  let this' := set_stringBuffer this (stringBuffer this ++ chunk) in
  scan (S (length (stringBuffer this'))) this'.

(** The loop of [filterFrames] on its variables [filteredFrames] and
    [lastFrame] ([None] is [undefined], whose field cannot be read). *)
Fixpoint filter_loop (frames filteredFrames : list KeyFrame.t)
         (lastFrame : option KeyFrame.t) : result (list KeyFrame.t) :=
  match frames with
  | [] => Ok filteredFrames
  | frame :: more =>
      match lastFrame with
      | None => Throw TypeError
      | Some last =>
          if (180 <? Z.of_N (KeyFrame.pts_time frame)
                     - Z.of_N (KeyFrame.pts_time last))%Z
          then filter_loop more (filteredFrames ++ [frame]) (Some frame)
          else filter_loop more filteredFrames lastFrame
      end
  end.

Definition filterFrames (this : t) : result (list KeyFrame.t) :=
  filter_loop (keyFrames this) [] (nth_error (keyFrames this) 0).

Definition close (this : t) : t * outcome :=
  match filterFrames this with
  | Ok frames =>
      (mk (stringBuffer this) (keyFrames this)
          (Promise_resolve (completionPromise this)
                           (KeyFrameCollection.mk frames)),
       Returned)
  | Throw e => (this, Threw e)
  end.

Definition abort (this : t) (reason : JsError) : t :=
  mk (stringBuffer this) (keyFrames this)
     (Promise_reject (completionPromise this) reason).

Definition processingDone (this : t) : Promise KeyFrameCollection.t :=
  completionPromise this.

(** Feeding a sequence of chunks, stopping at the first that throws. *)
Fixpoint write_all (this : t) (chunks : list text) : option (t * outcome) :=
  match chunks with
  | [] => Some (this, Returned)
  | chunk :: more =>
      match write this chunk with
      | Some (this', Returned) => write_all this' more
      | other => other
      end
  end.

End KeyFrameCollector.

(* ================================================================== *)
(** ** The script: where the copy of a file goes *)

(** The first occurrence of [pat] in [s]: the text before it and the text
    after it. *)
Fixpoint first_occurrence (pat s : text) : option (text * text) :=
  if starts_with pat s then Some ([], skipn (length pat) s)
  else
    match s with
    | [] => None
    | c :: s' =>
        match first_occurrence pat s' with
        | Some (b, a) => Some (c :: b, a)
        | None => None
        end
    end.

(** GetSubstitution for a pattern without captures: in the replacement
    text a dollar followed by a dollar stands for a dollar, followed by an
    ampersand for the matched text, by a backquote for the text before the
    match, by a quote for the text after it; anything else stands for
    itself. *)
Fixpoint GetSubstitution (matched before_ after_ template : text) : text :=
  match template with
  | [] => []
  | c1 :: rest =>
      match rest with
      | c2 :: t =>
          if Ascii.eqb c1 "$" then
            if Ascii.eqb c2 "$" then
              "$"%char :: GetSubstitution matched before_ after_ t
            else if Ascii.eqb c2 "&" then
              matched ++ GetSubstitution matched before_ after_ t
            else if Ascii.eqb c2 "`" then
              before_ ++ GetSubstitution matched before_ after_ t
            else if Ascii.eqb c2 "'" then
              after_ ++ GetSubstitution matched before_ after_ t
            else c1 :: GetSubstitution matched before_ after_ rest
          else c1 :: GetSubstitution matched before_ after_ rest
      | [] => [c1]
      end
  end.

(** [s.replace(pat, repl)] for a string [pat]: the first occurrence is
    replaced; without one the string is returned as it is. *)
Definition String_replace_string (s pat repl : text) : text :=
  match first_occurrence pat s with
  | Some (b, a) => b ++ GetSubstitution pat b a repl ++ a
  | None => s
  end.

(** [const destPath = sourcePath.replace(sourceDir, destDir)] *)
Definition destPath (sourcePath sourceDir destDir : text) : text :=
  String_replace_string sourcePath sourceDir destDir.

(* ================================================================== *)
(** * Vocabulary of the statements *)

(** ** What a pattern can match *)

(** [Matches r x y]: [r] can read from state [x] to state [y], whatever
    the priorities. *)
Inductive Matches : Regex -> MatchState -> MatchState -> Prop :=
| M_empty x : Matches REmpty x x
| M_char cs a s c :
    cs_match cs a = true ->
    Matches (RChar cs) (mkState (a :: s) c) (mkState s c)
| M_star_stop cs s c : Matches (RStar cs) (mkState s c) (mkState s c)
| M_star_more cs a s c y :
    cs_match cs a = true ->
    Matches (RStar cs) (mkState s c) y ->
    Matches (RStar cs) (mkState (a :: s) c) y
| M_seq r1 r2 x y z :
    Matches r1 x y -> Matches r2 y z -> Matches (RSeq r1 r2) x z
| M_group n r x y :
    Matches r x y ->
    Matches (RGroup n r) x
      (mkState (rest y) (set_cap n (consumed (rest x) (rest y)) (caps y))).

#[local] Hint Constructors Matches : core.

(** [no_leading_digit t]: a run of digits before [t] cannot be extended. *)
Definition no_leading_digit (t : text) : bool :=
  match t with
  | [] => true
  | a :: _ => negb (is_digit a)
  end.

(** [number_text d]: [d] is a non-empty run of decimal digits. *)
Definition number_text (d : text) : Prop :=
  d <> [] /\ forallb is_digit d = true.

(** [has_field name s]: [s] holds [name] followed by a number. *)
Definition has_field (name s : text) : Prop :=
  exists a d c, s = a ++ name ++ d ++ c /\ number_text d.

(** The shape [KeyFrame.frameRegEX] looks for: a [pts_time=] number, later
    a [pkt_pos=] number. *)
Definition frame_shape (s a d1 b d2 c : text) : Prop :=
  s = a ++ str "pts_time=" ++ d1 ++ b ++ str "pkt_pos=" ++ d2 ++ c /\
  number_text d1 /\ number_text d2.

(** The text between the markers that [KeyFrameCollector.frameRegEx] looks
    for: anything, [key_frame=], a digit, anything. *)
Definition block_text (a : text) (d : ascii) (b : text) : text :=
  a ++ str "key_frame=" ++ d :: b.

(** [clash l w]: [l] and [w] differ at a position both have, so that no
    text beginning with [w] begins with [l]. *)
Fixpoint clash (l w : text) : bool :=
  match l, w with
  | x :: l', y :: w' => negb (Ascii.eqb x y) || clash l' w'
  | _, _ => false
  end.

(** [skipped l w]: no position of [w] can begin an occurrence of [l],
    whatever follows [w]. *)
Fixpoint skipped (l w : text) : bool :=
  match w with
  | [] => true
  | _ :: w' => clash l w && skipped l w'
  end.

(** ** Selections *)

Definition timestamp (f : KeyFrame.t) : Z := Z.of_N (KeyFrame.pts_time f).

(** [g] comes more than the threshold after [f]. *)
Definition gap_after (f g : KeyFrame.t) : Prop :=
  (180 < timestamp g - timestamp f)%Z.

(** [f] has the smaller timestamp. *)
Definition earlier (f g : KeyFrame.t) : Prop :=
  (KeyFrame.pts_time f < KeyFrame.pts_time g)%N.

(** Which positions the selector keeps after the baseline [last], from the
    timestamps alone. *)
Fixpoint select_mask (last : N) (times : list N) : list bool :=
  match times with
  | [] => []
  | t :: more =>
      if (180 <? Z.of_N t - Z.of_N last)%Z then true :: select_mask t more
      else false :: select_mask last more
  end.

(** The same for a whole sequence, whose first timestamp is the first
    baseline. *)
Definition filter_mask (times : list N) : list bool :=
  match times with
  | [] => []
  | t0 :: _ => select_mask t0 times
  end.

(** The elements of [l] at the positions marked in [mask]. *)
Fixpoint keep {A : Type} (mask : list bool) (l : list A) : list A :=
  match mask, l with
  | true :: m, x :: l' => x :: keep m l'
  | false :: m, _ :: l' => keep m l'
  | _, _ => []
  end.

(** [subseq s l]: [s] is [l] with some elements left out. *)
Inductive subseq {A : Type} : list A -> list A -> Prop :=
| subseq_nil : subseq [] []
| subseq_skip x s l : subseq s l -> subseq s (x :: l)
| subseq_take x s l : subseq s l -> subseq (x :: s) (x :: l).

(** One reference is one object: two entries of an array with the same
    identity have the same fields. *)
Definition one_object_per_identity (l : list KeyFrame.t) : Prop :=
  forall f g, In f l -> In g l -> KeyFrame.oid f = KeyFrame.oid g -> f = g.

(** ** Numbers and documents *)

(** The digit values of [n], least significant first. *)
Fixpoint le_digits (fuel : nat) (n : N) : list N :=
  match fuel with
  | O => []
  | S fuel' =>
      (n mod 10)%N :: if (n <? 10)%N then [] else le_digits fuel' (n / 10)
  end.

(** The number with these digit values, least significant first. *)
Definition le_value (ds : list N) : N :=
  fold_right (fun d acc => d + 10 * acc)%N 0%N ds.

(** Every timestamp of [l] is below 2^53, where a number is the integer it
    was read from and is written with all its digits. *)
Definition written_exactly (l : list KeyFrame.t) : Prop :=
  Forall (fun f => (KeyFrame.pts_time f < 2 ^ 53)%N) l.

(** A document given by its lines. *)
Definition unlines (ls : list text) : text :=
  flat_map (fun l => l ++ [LF]) ls.

Definition no_LF (l : text) : bool :=
  forallb (fun c => negb (Ascii.eqb c LF)) l.

(** The chapter records of [l], the first one starting at [start]; [all] is
    the array the titles are numbered in. *)
Fixpoint records (all : list KeyFrame.t) (start : N) (l : list KeyFrame.t)
  : text :=
  match l with
  | [] => []
  | f :: more =>
      KeyFrameCollection.chapter start (KeyFrame.pts_time f) (indexOf all f + 1)
      ++ records all (KeyFrame.pts_time f) more
  end.

(** The records with the titles numbered by position, from the timestamps
    alone. *)
Fixpoint records_by_position (i : Z) (start : N) (times : list N) : text :=
  match times with
  | [] => []
  | t :: more =>
      KeyFrameCollection.chapter start t (i + 1)
      ++ records_by_position (i + 1) t more
  end.

(** *** Reading a chapter document back

    The reader of the document format, as the output format describes it:
    the document is cut into lines at each line feed; a line
    [START=<digits>] gives a start, a line [END=<digits>] an end, and the
    starts are paired with the ends in order. *)

Fixpoint split_lines (s : text) : list text :=
  match s with
  | [] => [[]]
  | c :: s' =>
      if Ascii.eqb c LF then [] :: split_lines s'
      else match split_lines s' with
           | l :: ls => (c :: l) :: ls
           | [] => [[c]]
           end
  end.

(** The number on a line that begins with [name]: the value of the digits
    that follow it. *)
Definition field_value (name line : text) : option N :=
  if starts_with name line
  then Some (parse_digits 0 (skipn (length name) line))
  else None.

(** The numbers of all the lines that begin with [name], in order. *)
Definition field_values (name doc : text) : list N :=
  flat_map (fun line => match field_value name line with
                        | Some v => [v]
                        | None => []
                        end)
           (split_lines doc).

Definition reparse_start_end (doc : text) : list (N * N) :=
  combine (field_values (str "START=") doc) (field_values (str "END=") doc).

(** ** Inputs of the analysis process *)

(** A descriptor block as the analysis process prints it, one field per
    line. *)
Definition descriptor_block (key_frame pts_time pkt_pos : string) : text :=
  unlines [str "[FRAME]";
           str "key_frame=" ++ str key_frame;
           str "pts_time=" ++ str pts_time;
           str "pkt_pos=" ++ str pkt_pos;
           str "[/FRAME]"].

(** A keyframe block without its timestamp. *)
Definition block_without_pts_time : text :=
  unlines [str "[FRAME]"; str "key_frame=1"; str "pkt_pos=48"; str "[/FRAME]"].

(** A block that is not a keyframe and has neither field. *)
Definition block_not_keyframe : text :=
  unlines [str "[FRAME]"; str "key_frame=0"; str "[/FRAME]"].

(** A keyframe block whose two fields have no number: the analysis process
    prints [N/A] for a value it does not know. *)
Definition block_with_unknown_fields : text := descriptor_block "1" "N/A" "N/A".

(** The keyframes a collector holds after a call, if the call ended. *)
Definition collected (r : option (KeyFrameCollector.t * outcome))
  : option (list KeyFrame.t) :=
  option_map (fun p => KeyFrameCollector.keyFrames (fst p)) r.

(** ** Calls on a collector *)

(** A call of one of the three methods the stream uses. *)
Inductive call : Type :=
| Write (chunk : text)
| Close
| Abort (reason : JsError).

(** The collector after a call, whether the call returned or threw. *)
Definition after_call (this : KeyFrameCollector.t) (c : call)
  : KeyFrameCollector.t :=
  match c with
  | Write chunk =>
      match KeyFrameCollector.write this chunk with
      | Some (this', _) => this'
      | None => this
      end
  | Close => fst (KeyFrameCollector.close this)
  | Abort reason => KeyFrameCollector.abort this reason
  end.

(** ** Descriptor blocks with their fields *)

(** What a descriptor block says: its flag, the whole and the fractional
    part of its timestamp, its byte offset. *)
Record frame_desc : Type := mkDesc {
  fd_flag : ascii;
  fd_pts : N;
  fd_frac : text;
  fd_pkt : N
}.

Definition frame_desc_ok (it : frame_desc) : Prop :=
  is_digit (fd_flag it) = true /\ forallb is_digit (fd_frac it) = true.

(** The block as the analysis process prints it, the timestamp with a
    decimal point. *)
Definition frame_block (it : frame_desc) : text :=
  unlines [str "[FRAME]";
           str "key_frame=" ++ [fd_flag it];
           str "pts_time=" ++ decimal (fd_pts it) ++ str "."
             ++ fd_frac it;
           str "pkt_pos=" ++ decimal (fd_pkt it);
           str "[/FRAME]"].

(** The keyframes of the blocks flagged [1], numbered from [next]; each
    holds the numbers that stand for the whole part of the timestamp and
    for the byte offset. *)
Fixpoint keyframes_of (next : nat) (items : list frame_desc)
  : list KeyFrame.t :=
  match items with
  | [] => []
  | it :: more =>
      if Ascii.eqb (fd_flag it) "1"
      then KeyFrame.mk next (Number_of_N (fd_pts it)) (Number_of_N (fd_pkt it))
           :: keyframes_of (S next) more
      else keyframes_of next more
  end.

(** [field_never_numeric name s]: wherever [name] occurs in [s], no digit
    follows it. *)
Fixpoint field_never_numeric (name s : text) : bool :=
  (if starts_with name s then no_leading_digit (skipn (length name) s)
   else true)
  && match s with
     | [] => true
     | _ :: s' => field_never_numeric name s'
     end.

(** The keyframes are numbered in the order they were made. *)
Definition numbered (this : KeyFrameCollector.t) : Prop :=
  map KeyFrame.oid (KeyFrameCollector.keyFrames this)
  = seq 0 (length (KeyFrameCollector.keyFrames this)).

(* ================================================================== *)
(** * Properties *)

(** ** Text *)

Lemma text_eqb_eq (a b : text) : text_eqb a b = true <-> a = b.
Proof.
  revert b; induction a as [|x a IH]; intros [|y b]; simpl;
    try (split; [discriminate | congruence]); try tauto.
  rewrite andb_true_iff, Ascii.eqb_eq, IH.
  split; [intros [-> ->]; reflexivity | intros [= -> ->]; auto].
Qed.

Lemma starts_with_app (l t : text) : starts_with l (l ++ t) = true.
Proof.
  induction l as [|x l IH]; simpl; [reflexivity|].
  now rewrite Ascii.eqb_refl.
Qed.

Lemma starts_with_inv (l s : text) :
  starts_with l s = true -> exists t, s = l ++ t.
Proof.
  revert s; induction l as [|x l IH]; intros s H; simpl in *.
  - now exists s.
  - destruct s as [|y s]; [discriminate|].
    apply andb_true_iff in H as [Hx Hl].
    apply Ascii.eqb_eq in Hx as ->.
    destruct (IH _ Hl) as [t ->]. now exists t.
Qed.

Lemma occurs_suffix (l a s : text) : occurs l s = true -> occurs l (a ++ s) = true.
Proof.
  induction a as [|x a IH]; intros H; [exact H|].
  change (starts_with l (x :: a ++ s) || occurs l (a ++ s) = true).
  rewrite (IH H). apply orb_true_r.
Qed.

Lemma occurs_intro (l a t : text) : occurs l (a ++ l ++ t) = true.
Proof.
  apply occurs_suffix.
  destruct (l ++ t) eqn:E; simpl; rewrite <- E, starts_with_app; reflexivity.
Qed.

Lemma occurs_inv (l s : text) :
  occurs l s = true -> exists a t, s = a ++ l ++ t.
Proof.
  induction s as [|x s IH]; intros H.
  - simpl in H. rewrite orb_false_r in H.
    destruct (starts_with_inv _ _ H) as [t Ht]. now exists [], t.
  - change (starts_with l (x :: s) || occurs l s = true) in H.
    apply orb_true_iff in H as [H|H].
    + destruct (starts_with_inv _ _ H) as [t Ht]. now exists [], t.
    + destruct (IH H) as (a & t & ->). now exists (x :: a), t.
Qed.

Lemma occurs_false_suffix (l a s : text) :
  occurs l (a ++ s) = false -> occurs l s = false.
Proof.
  intros H. destruct (occurs l s) eqn:E; [|reflexivity].
  now rewrite (occurs_suffix l a s E) in H.
Qed.

Lemma occurs_false_starts (l s : text) :
  occurs l s = false -> starts_with l s = false.
Proof.
  destruct s; simpl; intros H; apply orb_false_iff in H; tauto.
Qed.

Lemma consumed_app (w t : text) : consumed (w ++ t) t = w.
Proof.
  unfold consumed. rewrite length_app.
  replace (length w + length t - length t) with (length w + 0) by lia.
  rewrite firstn_app_2. simpl. apply app_nil_r.
Qed.

(** ** The matcher against a declarative reading of the patterns *)

Lemma star_matcher_sound cs s c k z :
  star_matcher cs s c k = Some z ->
  exists y, Matches (RStar cs) (mkState s c) y /\ k y = Some z.
Proof.
  induction s as [|a s IH]; simpl; intros H.
  - eauto.
  - destruct (cs_match cs a) eqn:Ea; [|eauto].
    destruct (star_matcher cs s c k) eqn:Es.
    + injection H as ->. destruct (IH eq_refl) as (y & Hy & Hk). eauto.
    + eauto.
Qed.

Lemma matcher_sound r : forall x k z,
  matcher r x k = Some z -> exists y, Matches r x y /\ k y = Some z.
Proof.
  induction r as [|cs|cs|r1 IH1 r2 IH2|n r IH]; intros [s c] k z H; simpl in H.
  - eauto.
  - destruct s as [|a s]; [discriminate|].
    destruct (cs_match cs a) eqn:Ea; [|discriminate]. eauto.
  - now apply star_matcher_sound.
  - apply IH1 in H as (y & Hy & H). apply IH2 in H as (w & Hw & H). eauto.
  - apply IH in H as (y & Hy & H).
    eexists; split; [apply M_group, Hy | exact H].
Qed.

Lemma matcher_complete r x y :
  Matches r x y ->
  forall k z, k y = Some z -> exists z', matcher r x k = Some z'.
Proof.
  induction 1 as [x|cs a s c Ha|cs s c|cs a s c y Ha _ IH
                 |r1 r2 x y w _ IH1 _ IH2|n r x y _ IH]; intros k z Hk; simpl.
  - eauto.
  - rewrite Ha. eauto.
  - destruct s as [|a s]; simpl; [eauto|].
    destruct (cs_match cs a); [|eauto].
    destruct (star_matcher cs s c k); eauto.
  - rewrite Ha. destruct (IH _ _ Hk) as [z' Hz']. simpl in Hz'.
    rewrite Hz'. eauto.
  - destruct (IH2 _ _ Hk) as [z2 Hz2].
    apply (IH1 (fun y => matcher r2 y k) z2 Hz2).
  - apply (IH (fun y => k (mkState (rest y)
                 (set_cap n (consumed (rest x) (rest y)) (caps y)))) z Hk).
Qed.

Lemma Matches_seq_inv r1 r2 x z :
  Matches (RSeq r1 r2) x z -> exists y, Matches r1 x y /\ Matches r2 y z.
Proof. inversion 1; subst; eauto. Qed.

Lemma Matches_group_inv n r x z :
  Matches (RGroup n r) x z ->
  exists y, Matches r x y /\
            z = mkState (rest y) (set_cap n (consumed (rest x) (rest y)) (caps y)).
Proof. inversion 1; subst; eauto. Qed.

Lemma Matches_char_inv cs x y :
  Matches (RChar cs) x y ->
  exists a, rest x = a :: rest y /\ cs_match cs a = true /\ caps y = caps x.
Proof. inversion 1; subst; simpl; eauto. Qed.

Lemma Matches_star_inv cs x y :
  Matches (RStar cs) x y ->
  exists w, rest x = w ++ rest y /\ forallb (cs_match cs) w = true /\
            caps y = caps x.
Proof.
  intros H. remember (RStar cs) as r eqn:Er.
  induction H as [| | |cs' a s c y Ha H IH| |]; try discriminate.
  - exists []. auto.
  - injection Er as ->. destruct (IH eq_refl) as (w & Hw & Hd & Hc).
    simpl in *. exists (a :: w). simpl. rewrite Ha, Hd, Hw. auto.
Qed.

Lemma Matches_lit_inv l : forall x y,
  Matches (RLit l) x y -> rest x = l ++ rest y /\ caps y = caps x.
Proof.
  induction l as [|a l IH]; intros x y H; simpl in H.
  - inversion H; subst. auto.
  - apply Matches_seq_inv in H as (w & Ha & Hl).
    apply Matches_char_inv in Ha as (a' & Hr & Hm & Hc).
    apply IH in Hl as [Hl Hc']. simpl in Hm. apply Ascii.eqb_eq in Hm as <-.
    rewrite Hr, Hl, Hc', Hc. auto.
Qed.

Lemma Matches_plus_inv cs x y :
  Matches (RPlus cs) x y ->
  exists w, rest x = w ++ rest y /\ w <> [] /\
            forallb (cs_match cs) w = true /\ caps y = caps x.
Proof.
  intros H. apply Matches_seq_inv in H as (m & Ha & Hs).
  apply Matches_char_inv in Ha as (a & Hr & Hm & Hc).
  apply Matches_star_inv in Hs as (w & Hw & Hd & Hc').
  exists (a :: w). simpl. rewrite Hr, Hw, Hm, Hd, Hc', Hc.
  repeat split; congruence.
Qed.

Lemma Matches_lit_intro l t c : Matches (RLit l) (mkState (l ++ t) c) (mkState t c).
Proof.
  induction l as [|a l IH]; simpl; [constructor|].
  eapply M_seq; [|exact IH]. constructor. simpl. apply Ascii.eqb_refl.
Qed.

Lemma Matches_star_intro cs w t c :
  forallb (cs_match cs) w = true ->
  Matches (RStar cs) (mkState (w ++ t) c) (mkState t c).
Proof.
  induction w as [|a w IH]; simpl; intros H; [constructor|].
  apply andb_true_iff in H as [Ha Hw]. constructor; auto.
Qed.

Lemma Matches_plus_intro cs w t c :
  w <> [] -> forallb (cs_match cs) w = true ->
  Matches (RPlus cs) (mkState (w ++ t) c) (mkState t c).
Proof.
  destruct w as [|a w]; [congruence|]. simpl. intros _ H.
  apply andb_true_iff in H as [Ha Hw].
  eapply M_seq; [constructor; exact Ha | now apply Matches_star_intro].
Qed.

Lemma forallb_any w : forallb (cs_match CsAny) w = true.
Proof. induction w; simpl; auto. Qed.

(** ** The two priorities that matter: the longest [.*] whose continuation
       succeeds, and the longest run of digits *)

Lemma star_any_none s c k :
  star_matcher CsAny s c k = None ->
  forall a b, s = a ++ b -> k (mkState b c) = None.
Proof.
  induction s as [|x s IH]; simpl; intros H a b E.
  - destruct a; [|discriminate]. simpl in E. now subst b.
  - destruct (star_matcher CsAny s c k) eqn:Es; [discriminate|].
    destruct a as [|x' a]; simpl in E.
    + now subst b.
    + injection E as _ E. eapply IH; eauto.
Qed.

Lemma star_any_spec s c k r :
  star_matcher CsAny s c k = Some r ->
  exists a b, s = a ++ b /\ k (mkState b c) = Some r /\
    forall x b', b = x ++ b' -> x <> [] -> k (mkState b' c) = None.
Proof.
  induction s as [|x s IH]; simpl; intros H.
  - exists [], []. repeat split; auto.
    intros [|] b' E; [congruence | discriminate].
  - destruct (star_matcher CsAny s c k) eqn:Es.
    + injection H as ->. destruct (IH eq_refl) as (a & b & -> & Hk & Hl).
      exists (x :: a), b. auto.
    + exists [], (x :: s). repeat split; auto.
      intros [|x' w] b' E Hw; [congruence|].
      injection E as _ E. eapply star_any_none; eauto.
Qed.

Lemma star_any_last a b c k r :
  k (mkState b c) = Some r ->
  (forall x b', b = x ++ b' -> x <> [] -> k (mkState b' c) = None) ->
  star_matcher CsAny (a ++ b) c k = Some r.
Proof.
  intros Hk Hl.
  assert (Hb : star_matcher CsAny b c k = Some r).
  { clear a. revert Hk Hl. induction b as [|x b IH]; simpl; intros Hk Hl; [exact Hk|].
    destruct (star_matcher CsAny b c k) eqn:Es; [|exact Hk].
    apply star_any_spec in Es as (a' & b' & E & Hk' & _).
    rewrite (Hl (x :: a') b') in Hk'; [discriminate | now rewrite E | discriminate]. }
  induction a as [|x a IH]; simpl; [exact Hb|]. now rewrite IH.
Qed.

Lemma star_any_accept s c : star_matcher CsAny s c Some = Some (mkState [] c).
Proof. induction s as [|x s IH]; simpl; [reflexivity | now rewrite IH]. Qed.

Lemma star_digit_max d t c k r :
  forallb is_digit d = true -> no_leading_digit t = true ->
  k (mkState t c) = Some r ->
  star_matcher CsDigit (d ++ t) c k = Some r.
Proof.
  intros Hd Ht Hk. induction d as [|a d IH]; simpl in *.
  - destruct t as [|a t]; simpl in *; [exact Hk|].
    apply negb_true_iff in Ht. now rewrite Ht.
  - apply andb_true_iff in Hd as [Ha Hd]. now rewrite Ha, (IH Hd).
Qed.

Lemma matcher_seq r1 r2 x k :
  matcher (RSeq r1 r2) x k = matcher r1 x (fun y => matcher r2 y k).
Proof. reflexivity. Qed.

Lemma matcher_star cs s c k :
  matcher (RStar cs) (mkState s c) k = star_matcher cs s c k.
Proof. reflexivity. Qed.

Lemma matcher_lit l t c k : matcher (RLit l) (mkState (l ++ t) c) k = k (mkState t c).
Proof.
  revert k; induction l as [|a l IH]; intros k; simpl; [reflexivity|].
  rewrite Ascii.eqb_refl. apply IH.
Qed.

Lemma matcher_lit_fail l s c k :
  starts_with l s = false -> matcher (RLit l) (mkState s c) k = None.
Proof.
  revert s k; induction l as [|a l IH]; intros s k H; simpl in *; [discriminate|].
  destruct s as [|b s]; [reflexivity|].
  destruct (Ascii.eqb a b) eqn:E; simpl in *; [now apply IH | reflexivity].
Qed.

Lemma matcher_digits_group n d t c k r :
  d <> [] -> forallb is_digit d = true -> no_leading_digit t = true ->
  k (mkState t (set_cap n d c)) = Some r ->
  matcher (RGroup n (RPlus CsDigit)) (mkState (d ++ t) c) k = Some r.
Proof.
  intros Hn Hd Ht Hk. destruct d as [|a d]; [congruence|].
  simpl in Hd. apply andb_true_iff in Hd as [Ha Hd].
  cbn [matcher RPlus rest caps app]. cbn [cs_match]. rewrite Ha.
  apply star_digit_max; auto. cbn [rest caps].
  change (a :: d ++ t) with ((a :: d) ++ t). now rewrite consumed_app.
Qed.

(** ** The search for the leftmost match *)

Lemma regexp_exec_unfold r n s :
  regexp_exec r n s =
  match match_here r n s with
  | Some y =>
      Some (mkFound [] (set_cap 0 (consumed s (rest y)) (caps y)) (rest y))
  | None =>
      match s with
      | [] => None
      | a :: s' =>
          match regexp_exec r n s' with
          | Some f => Some (mkFound (a :: before f) (groups f) (after f))
          | None => None
          end
      end
  end.
Proof. destruct s; reflexivity. Qed.

Lemma regexp_exec_none r n s :
  regexp_exec r n s = None ->
  forall a u, s = a ++ u -> match_here r n u = None.
Proof.
  induction s as [|x s IH]; intros H a u E; rewrite regexp_exec_unfold in H;
    destruct (match_here r n _) eqn:Eh; try discriminate.
  - destruct a; [|discriminate]. simpl in E. now subst u.
  - destruct (regexp_exec r n s) eqn:Er; [discriminate|].
    destruct a as [|x' a]; simpl in E; [now subst u|].
    injection E as _ E. eapply IH; eauto.
Qed.

Lemma regexp_exec_spec r n s f :
  regexp_exec r n s = Some f ->
  exists u y,
    s = before f ++ u /\ match_here r n u = Some y /\
    groups f = set_cap 0 (consumed u (rest y)) (caps y) /\
    after f = rest y /\
    forall p1 p2, before f = p1 ++ p2 -> p2 <> [] ->
                  match_here r n (p2 ++ u) = None.
Proof.
  revert f; induction s as [|x s IH]; intros f H; rewrite regexp_exec_unfold in H;
    destruct (match_here r n _) as [y|] eqn:Eh; try discriminate.
  - injection H as <-. exists [], y. simpl. repeat split; auto.
    intros p1 [|] E; [congruence|]. now destruct p1.
  - injection H as <-. exists (x :: s), y. simpl. repeat split; auto.
    intros p1 [|] E; [congruence|]. now destruct p1.
  - destruct (regexp_exec r n s) as [f'|] eqn:Er; [|discriminate].
    injection H as <-. destruct (IH _ eq_refl) as (u & y & Es & Hm & Hg & Ha & Hl).
    exists u, y. simpl. repeat split; auto; [now rewrite Es|].
    intros [|x' p1] p2 E Hp; simpl in E.
    + subst p2. simpl. now rewrite <- Es.
    + injection E as _ E. eauto.
Qed.

Lemma regexp_exec_here r n s y :
  match_here r n s = Some y ->
  regexp_exec r n s =
  Some (mkFound [] (set_cap 0 (consumed s (rest y)) (caps y)) (rest y)).
Proof. intros H. now rewrite regexp_exec_unfold, H. Qed.

(** A match somewhere in [s] means the search does not come back empty. *)
Lemma regexp_exec_some r n a u y :
  match_here r n u = Some y -> exists f, regexp_exec r n (a ++ u) = Some f.
Proof.
  intros H. destruct (regexp_exec r n (a ++ u)) eqn:E; [eauto|].
  now rewrite (regexp_exec_none _ _ E a u eq_refl) in H.
Qed.

(** ** KeyFrame: what the constructor accepts and what it extracts *)

Lemma Matches_frameRegEX s c0 y :
  Matches KeyFrame.frameRegEX (mkState s c0) y ->
  exists a d1 b d2 c,
    frame_shape s a d1 b d2 c /\
    caps y = set_cap 2 d2 (set_cap 1 d1 c0).
Proof.
  unfold KeyFrame.frameRegEX. intros H.
  apply Matches_seq_inv in H as (x1 & H1 & H).
  apply Matches_seq_inv in H as (x2 & H2 & H).
  apply Matches_seq_inv in H as (x3 & H3 & H).
  apply Matches_seq_inv in H as (x4 & H4 & H).
  apply Matches_seq_inv in H as (x5 & H5 & H).
  apply Matches_seq_inv in H as (x6 & H6 & H7).
  apply Matches_star_inv in H1 as (a & E1 & _ & C1).
  apply Matches_lit_inv in H2 as (E2 & C2).
  apply Matches_group_inv in H3 as (g1 & H3 & ->).
  apply Matches_plus_inv in H3 as (d1 & E3 & N3 & D3 & C3).
  apply Matches_star_inv in H4 as (b & E4 & _ & C4).
  apply Matches_lit_inv in H5 as (E5 & C5).
  apply Matches_group_inv in H6 as (g2 & H6 & ->).
  apply Matches_plus_inv in H6 as (d2 & E6 & N6 & D6 & C6).
  apply Matches_star_inv in H7 as (c & E7 & _ & C7).
  simpl in *. exists a, d1, b, d2, (c ++ rest y).
  rewrite C7, C6, C5, C4, C3, C2, C1.
  rewrite E3, E6, !consumed_app.
  split; [|reflexivity].
  split; [|split; split; assumption].
  now rewrite E1, E2, E3, E4, E5, E6, E7.
Qed.

Lemma Matches_frameRegEX_intro a d1 b d2 c c0 :
  number_text d1 -> number_text d2 ->
  Matches KeyFrame.frameRegEX
    (mkState (a ++ str "pts_time=" ++ d1 ++ b ++ str "pkt_pos=" ++ d2 ++ c) c0)
    (mkState [] (set_cap 2 d2 (set_cap 1 d1 c0))).
Proof.
  intros [N1 D1] [N2 D2]. unfold KeyFrame.frameRegEX.
  eapply M_seq; [apply Matches_star_intro, forallb_any|].
  eapply M_seq; [apply Matches_lit_intro|].
  eapply M_seq; [apply M_group, Matches_plus_intro; eassumption|].
  cbn [rest caps]. rewrite consumed_app.
  eapply M_seq; [apply Matches_star_intro, forallb_any|].
  eapply M_seq; [apply Matches_lit_intro|].
  eapply M_seq; [apply M_group, Matches_plus_intro; eassumption|].
  cbn [rest caps]. rewrite consumed_app.
  rewrite <- (app_nil_r c) at 1. apply Matches_star_intro, forallb_any.
Qed.

(** The constructor returns a keyframe only for a text of the shape, and
    then with what [parseInt] makes of the two digit runs of such a
    reading. *)
Lemma KeyFrame_new_inv id s f :
  KeyFrame.new id s = Ok f ->
  exists a d1 b d2 c,
    frame_shape s a d1 b d2 c /\
    f = KeyFrame.mk id (parseInt d1) (parseInt d2).
Proof.
  unfold KeyFrame.new, String_match. intros H.
  destruct (regexp_exec KeyFrame.frameRegEX 2 s) as [fd|] eqn:E; [|discriminate].
  apply regexp_exec_spec in E as (u & y & Es & Hm & Hg & _ & _).
  apply matcher_sound in Hm as (y' & HM & [= ->]).
  apply Matches_frameRegEX in HM as (a & d1 & b & d2 & c & (Eu & Hd1 & Hd2) & Hc).
  simpl in H. rewrite Hg, Hc in H. simpl in H. injection H as <-.
  exists (before fd ++ a), d1, b, d2, c. split; [|reflexivity].
  split; [|split; assumption]. now rewrite Es, Eu, <- app_assoc.
Qed.

(** Any text of the shape is accepted. *)
Lemma KeyFrame_new_complete id s a d1 b d2 c :
  frame_shape s a d1 b d2 c -> exists f, KeyFrame.new id s = Ok f.
Proof.
  intros (-> & Hd1 & Hd2).
  destruct (matcher_complete
              (Matches_frameRegEX_intro a b c [None; None; None] Hd1 Hd2)
              Some eq_refl) as [z Hz].
  destruct (regexp_exec_some KeyFrame.frameRegEX 2 [] _ Hz) as [fd E].
  rewrite app_nil_l in E.
  destruct (KeyFrame.new id (a ++ str "pts_time=" ++ d1 ++ b ++ str "pkt_pos=" ++ d2 ++ c))
    as [f|e] eqn:En; [eauto|].
  exfalso. unfold KeyFrame.new, String_match in En. rewrite E in En.
  apply regexp_exec_spec in E as (u & y & _ & Hm & Hg & _ & _).
  apply matcher_sound in Hm as (y' & HM & [= ->]).
  apply Matches_frameRegEX in HM as (? & ? & ? & ? & ? & _ & Hc).
  simpl in En. rewrite Hg, Hc in En. simpl in En. discriminate.
Qed.

Lemma clash_starts_with l w t : clash l w = true -> starts_with l (w ++ t) = false.
Proof.
  revert w; induction l as [|x l IH]; intros [|y w] H; simpl in *;
    try discriminate.
  destruct (Ascii.eqb x y); simpl in *; auto.
Qed.

Lemma occurs_skip l w t :
  skipped l w = true -> occurs l t = false -> occurs l (w ++ t) = false.
Proof.
  intros Hw Ht. induction w as [|x w IH]; [exact Ht|].
  simpl in Hw. apply andb_true_iff in Hw as [Hx Hw].
  change (starts_with l ((x :: w) ++ t) || occurs l (w ++ t) = false).
  now rewrite (IH Hw), (clash_starts_with _ _ t Hx).
Qed.

Lemma digit_not_p a : is_digit a = true -> negb (Ascii.eqb "p" a) = true.
Proof.
  destruct a as [[] [] [] [] [] [] [] []]; simpl; intros H;
    try reflexivity; discriminate.
Qed.

Lemma digits_skipped l d :
  forallb is_digit d = true -> skipped ("p"%char :: l) d = true.
Proof.
  induction d as [|a d IH]; cbn [forallb skipped clash]; [reflexivity|].
  intros H. apply andb_true_iff in H as [Ha Hd].
  now rewrite (digit_not_p _ Ha), IH.
Qed.

(** When [l0 :: l] does not occur after its occurrence at the head of
    [(l0 :: l) ++ t] and cannot overlap itself, no later position of that
    text begins with it. *)
Lemma last_occurrence l0 l t x u :
  skipped (l0 :: l) l = true ->
  occurs (l0 :: l) t = false ->
  (l0 :: l) ++ t = x ++ u -> x <> [] ->
  starts_with (l0 :: l) u = false.
Proof.
  intros Hl Ht E Hx. apply occurs_false_starts.
  destruct x as [|x0 x]; [congruence|]. simpl in E. injection E as _ E.
  apply (occurs_false_suffix _ x). rewrite <- E. now apply occurs_skip.
Qed.

Lemma no_leading_digit_app b l0 t :
  no_leading_digit b = true -> is_digit l0 = false ->
  no_leading_digit (b ++ l0 :: t) = true.
Proof. destruct b; simpl; intros Hb Hl; [now rewrite Hl | exact Hb]. Qed.

(** With the two fields in this order, each once, the constructor
    extracts the two numbers. *)
Lemma KeyFrame_new_exact id a d1 b d2 c :
  number_text d1 -> number_text d2 ->
  no_leading_digit b = true -> no_leading_digit c = true ->
  occurs (str "pts_time=") (b ++ str "pkt_pos=" ++ d2 ++ c) = false ->
  occurs (str "pkt_pos=") c = false ->
  KeyFrame.new id (a ++ str "pts_time=" ++ d1 ++ b ++ str "pkt_pos=" ++ d2 ++ c)
  = Ok (KeyFrame.mk id (parseInt d1) (parseInt d2)).
Proof.
  intros [N1 D1] [N2 D2] Hb Hc O1 O2.
  assert (Hm : match_here KeyFrame.frameRegEX 2
                 (a ++ str "pts_time=" ++ d1 ++ b ++ str "pkt_pos=" ++ d2 ++ c)
               = Some (mkState [] [None; Some d1; Some d2])).
  { unfold match_here, KeyFrame.frameRegEX.
    rewrite matcher_seq, matcher_star. apply star_any_last; cbv beta.
    - rewrite matcher_seq, matcher_lit, matcher_seq.
      apply matcher_digits_group; auto.
      { now apply no_leading_digit_app. }
      rewrite matcher_seq, matcher_star. apply star_any_last; cbv beta.
      + rewrite matcher_seq, matcher_lit, matcher_seq.
        apply matcher_digits_group; auto.
        rewrite matcher_star. apply star_any_accept.
      + intros x u E Hx. rewrite matcher_seq. apply matcher_lit_fail.
        apply last_occurrence
          with (l0 := "p"%char) (l := str "kt_pos=") (t := d2 ++ c) (x := x);
          [reflexivity | | exact E | exact Hx].
        apply occurs_skip; [now apply digits_skipped | exact O2].
    - intros x u E Hx. rewrite matcher_seq. apply matcher_lit_fail.
      apply last_occurrence
        with (l0 := "p"%char) (l := str "ts_time=")
             (t := d1 ++ b ++ str "pkt_pos=" ++ d2 ++ c) (x := x);
        [reflexivity | | exact E | exact Hx].
      apply occurs_skip; [now apply digits_skipped | exact O1]. }
  unfold KeyFrame.new, String_match.
  rewrite (regexp_exec_here _ _ _ Hm). reflexivity.
Qed.

(** ** The boundary selector *)

Lemma subseq_nil_l {A : Type} (l : list A) : subseq [] l.
Proof. induction l; constructor; auto. Qed.

Lemma keep_subseq {A : Type} (mask : list bool) (l : list A) : subseq (keep mask l) l.
Proof.
  revert mask; induction l as [|x l IH]; intros [|[] m]; simpl;
    try apply subseq_nil_l.
  - apply subseq_take, IH.
  - apply subseq_skip, IH.
Qed.

Lemma filter_loop_keep frames : forall acc last,
  KeyFrameCollector.filter_loop frames acc (Some last) =
  Ok (acc ++ keep (select_mask (KeyFrame.pts_time last)
                               (map KeyFrame.pts_time frames)) frames).
Proof.
  induction frames as [|f frames IH]; intros acc last; simpl.
  - now rewrite app_nil_r.
  - destruct (180 <? _)%Z; rewrite IH; [|reflexivity].
    now rewrite <- app_assoc.
Qed.

Lemma filterFrames_keep this :
  KeyFrameCollector.filterFrames this =
  Ok (keep (filter_mask (map KeyFrame.pts_time (KeyFrameCollector.keyFrames this)))
           (KeyFrameCollector.keyFrames this)).
Proof.
  unfold KeyFrameCollector.filterFrames.
  destruct (KeyFrameCollector.keyFrames this) as [|f frames]; [reflexivity|].
  cbn [nth_error]. now rewrite filter_loop_keep.
Qed.

(** The first position is never kept. *)
Lemma filter_mask_first t0 times :
  filter_mask (t0 :: times) = false :: select_mask t0 times.
Proof.
  unfold filter_mask. cbn [select_mask].
  replace (Z.of_N t0 - Z.of_N t0)%Z with 0%Z by lia. reflexivity.
Qed.

Lemma select_sorted frames : forall last,
  let out := keep (select_mask (KeyFrame.pts_time last)
                               (map KeyFrame.pts_time frames)) frames in
  Sorted gap_after out /\ HdRel gap_after last out.
Proof.
  induction frames as [|f frames IH]; intros last; simpl.
  - split; constructor.
  - destruct (180 <? _)%Z eqn:E; simpl.
    + destruct (IH f) as [Hs Hh]. split; constructor; auto.
      apply Z.ltb_lt in E. exact E.
    + apply IH.
Qed.

#[local] Instance gap_after_trans : RelationClasses.Transitive gap_after.
Proof. unfold gap_after. intros f g h H1 H2. lia. Qed.

#[local] Instance earlier_trans : RelationClasses.Transitive earlier.
Proof. unfold earlier. intros f g h H1 H2. lia. Qed.

Lemma gap_after_earlier f g : gap_after f g -> earlier f g.
Proof. unfold gap_after, earlier, timestamp. lia. Qed.

Lemma Sorted_gap_earlier l : Sorted gap_after l -> StronglySorted earlier l.
Proof.
  intros H. apply Sorted_StronglySorted; [exact earlier_trans|].
  induction H as [|a l Hs IH Hh]; constructor; auto.
  destruct Hh; constructor. now apply gap_after_earlier.
Qed.

Lemma gap_after_not_In f l : Forall (gap_after f) l -> ~ In f l.
Proof.
  intros H Hin. rewrite Forall_forall in H. specialize (H _ Hin).
  unfold gap_after in H. lia.
Qed.

(** C3. For every KeyFrame Sequence the selector returns, without
    throwing, a list in which each keyframe comes more than 180 after the
    one before it, so that the timestamps are strictly increasing; the list
    is taken from the elements after the first one, every one of them comes
    more than 180 after the first element of the sequence, and the first
    element is not in it. *)
Theorem filterFrames_threshold_invariant
        (buffer : text) (frames : list KeyFrame.t)
        (promise : Promise KeyFrameCollection.t) :
  exists boundaries,
    KeyFrameCollector.filterFrames (KeyFrameCollector.mk buffer frames promise)
    = Ok boundaries /\
    Sorted gap_after boundaries /\
    StronglySorted earlier boundaries /\
    match frames with
    | [] => boundaries = []
    | first :: others =>
        subseq boundaries others /\
        Forall (gap_after first) boundaries /\
        ~ In first boundaries
    end.
Proof.
  rewrite filterFrames_keep. eexists; split; [reflexivity|].
  cbn [KeyFrameCollector.keyFrames].
  destruct frames as [|first others].
  - repeat split; constructor.
  - cbn [map]. rewrite filter_mask_first. cbn [keep].
    destruct (select_sorted others first) as [Hs Hh].
    assert (Hf : Forall (gap_after first)
                   (keep (select_mask (KeyFrame.pts_time first)
                                      (map KeyFrame.pts_time others)) others)).
    { apply Sorted_extends; [exact gap_after_trans|]. now constructor. }
    repeat split; auto using Sorted_gap_earlier, keep_subseq, gap_after_not_In.
Qed.

(** ** Numbers as text *)

Lemma digits_of_le fuel : forall n acc,
  digits_of fuel n acc = map digit_char (rev (le_digits fuel n)) ++ acc.
Proof.
  induction fuel as [|fuel IH]; intros n acc; simpl; [reflexivity|].
  destruct (n <? 10)%N; simpl; [reflexivity|].
  now rewrite IH, map_app, <- app_assoc.
Qed.

Lemma le_digits_small fuel : forall n,
  Forall (fun d => d < 10)%N (le_digits fuel n).
Proof.
  induction fuel as [|fuel IH]; intros n; simpl; constructor.
  - apply N.mod_lt. discriminate.
  - destruct (n <? 10)%N; [constructor | apply IH].
Qed.

Lemma le_digits_value fuel : forall n,
  (n < 2 ^ N.of_nat fuel)%N -> le_value (le_digits fuel n) = n.
Proof.
  induction fuel as [|fuel IH]; intros n Hn.
  - simpl in Hn. assert (n = 0%N) by lia. now subst.
  - cbn [le_digits]. destruct (n <? 10)%N eqn:E.
    + apply N.ltb_lt in E. unfold le_value. simpl.
      rewrite N.mod_small by exact E. lia.
    + unfold le_value in *. cbn [fold_right]. rewrite IH.
      * pose proof (N.div_mod n 10). lia.
      * rewrite Nat2N.inj_succ, N.pow_succ_r' in Hn.
        apply N.Div0.div_lt_upper_bound. lia.
Qed.

Lemma digit_char_spec d :
  (d < 10)%N -> is_digit (digit_char d) = true /\ digit_value (digit_char d) = d.
Proof.
  intros H. unfold is_digit, digit_value, digit_char.
  rewrite N_ascii_embedding by lia. split; [|lia].
  apply andb_true_iff. split; apply N.leb_le; lia.
Qed.

Lemma parse_digits_chars ds : forall acc t,
  Forall (fun d => d < 10)%N ds -> no_leading_digit t = true ->
  parse_digits acc (map digit_char ds ++ t)
  = fold_left (fun a d => 10 * a + d)%N ds acc.
Proof.
  induction ds as [|d ds IH]; intros acc t Hd Ht; simpl.
  - destruct t as [|c t]; simpl in *; [reflexivity|].
    apply negb_true_iff in Ht. now rewrite Ht.
  - inversion Hd as [|? ? Hd0 Hds]; subst.
    destruct (digit_char_spec Hd0) as [-> ->]. now apply IH.
Qed.

Lemma fold_left_rev_value ds :
  fold_left (fun a d => 10 * a + d)%N (rev ds) 0%N = le_value ds.
Proof.
  induction ds as [|d ds IH]; [reflexivity|].
  cbn [rev]. rewrite fold_left_app. cbn [fold_left]. rewrite IH.
  unfold le_value. cbn [fold_right]. lia.
Qed.

Lemma decimal_le n :
  decimal n
  = map digit_char (rev (le_digits (S (N.to_nat (N.log2 n))) n)).
Proof. unfold decimal. now rewrite digits_of_le, app_nil_r. Qed.

Lemma log2_fuel n : (n < 2 ^ N.of_nat (S (N.to_nat (N.log2 n))))%N.
Proof.
  rewrite Nat2N.inj_succ, N2Nat.id.
  destruct n as [|p]; [reflexivity|]. apply N.log2_spec. reflexivity.
Qed.

(** Reading back a rendered number, whatever non-digit text follows. *)
Lemma parse_decimal n t :
  no_leading_digit t = true -> parse_digits 0 (decimal n ++ t) = n.
Proof.
  intros Ht. rewrite decimal_le, parse_digits_chars; auto.
  - rewrite fold_left_rev_value. apply le_digits_value, log2_fuel.
  - apply Forall_rev, le_digits_small.
Qed.

Lemma decimal_digits n : forallb is_digit (decimal n) = true.
Proof.
  rewrite decimal_le. apply forallb_forall. intros c Hc.
  apply in_map_iff in Hc as (d & <- & Hd). apply in_rev in Hd.
  pose proof (le_digits_small (S (N.to_nat (N.log2 n))) n) as Hs.
  rewrite Forall_forall in Hs. now apply digit_char_spec, Hs.
Qed.

(** ** Numbers: rounding and writing *)

Lemma Number_of_N_safe v : (v < 2 ^ 53)%N -> Number_of_N v = v.
Proof.
  intros H. unfold Number_of_N.
  assert (Hk : (N.log2 v - 52 = 0)%N).
  { destruct (N.eq_dec v 0) as [->|Hv]; [reflexivity|].
    assert (N.log2 v < 53)%N by (apply N.log2_lt_pow2; [lia | exact H]).
    lia. }
  rewrite Hk. cbv zeta.
  rewrite N.shiftr_0_r, !N.shiftl_0_r, N.sub_diag.
  change (N.shiftl 1 (0 - 1)) with 1%N. cbn [N.ltb N.eqb N.compare orb andb].
  apply N.min_l. unfold Infinity.
  apply N.lt_le_incl, (N.lt_trans _ _ _ H).
  apply N.pow_lt_mono_r; [reflexivity | reflexivity].
Qed.

Lemma Number_of_N_large v : (2 ^ 53 <= v)%N -> (2 ^ 53 <= Number_of_N v)%N.
Proof.
  intros H. unfold Number_of_N.
  assert (Hv : (0 < v)%N).
  { apply (N.lt_le_trans _ (2 ^ 53)); [reflexivity | exact H]. }
  assert (HL : (53 <= N.log2 v)%N) by (apply N.log2_le_pow2; assumption).
  destruct (N.log2_spec v Hv) as [Hlow _].
  set (k := (N.log2 v - 52)%N) in *. cbv zeta.
  set (q := N.shiftr v k).
  assert (Hq : (2 ^ 52 <= q)%N).
  { unfold q. rewrite N.shiftr_div_pow2.
    apply N.div_le_lower_bound; [apply N.pow_nonzero; discriminate|].
    rewrite <- N.pow_add_r. replace (k + 52)%N with (N.log2 v) by lia.
    exact Hlow. }
  match goal with
  | |- context [N.shiftl (if ?c then _ else _) k] =>
      assert (Hq' : (q <= (if c then q + 1 else q))%N) by (destruct c; lia);
      set (q' := if c then (q + 1)%N else q) in *
  end.
  apply N.min_glb.
  - rewrite N.shiftl_mul_pow2.
    apply (N.le_trans _ (2 ^ 52 * 2 ^ k)).
    + rewrite <- N.pow_add_r. apply N.pow_le_mono_r; [discriminate | lia].
    + apply N.mul_le_mono_r. lia.
  - unfold Infinity. apply N.pow_le_mono_r; [discriminate | lia].
Qed.

(** An integer with 53 significant bits is a number, and so is what
    rounding gives: rounding again changes nothing. *)
Lemma Number_of_N_exact m e :
  (2 ^ 52 <= m < 2 ^ 53)%N ->
  Number_of_N (m * 2 ^ e) = N.min (m * 2 ^ e) Infinity.
Proof.
  intros [Hlo Hhi]. unfold Number_of_N.
  assert (Hm : (0 < m)%N).
  { apply (N.lt_le_trans _ (2 ^ 52)); [reflexivity | exact Hlo]. }
  assert (HL : N.log2 m = 52%N).
  { apply N.log2_unique; [discriminate | split; assumption]. }
  rewrite N.log2_mul_pow2 by (assumption || apply N.le_0_l).
  rewrite HL. replace (e + 52 - 52)%N with e by lia. cbv zeta.
  rewrite N.shiftr_div_pow2, N.div_mul
    by (apply N.pow_nonzero; discriminate).
  rewrite !N.shiftl_mul_pow2, N.sub_diag, N.mul_1_l.
  assert (Hh : (2 ^ (e - 1) <> 0)%N) by (apply N.pow_nonzero; discriminate).
  replace (2 ^ (e - 1) <? 0)%N with false
    by (symmetry; apply N.ltb_ge, N.le_0_l).
  replace (2 ^ (e - 1) =? 0)%N with false
    by (symmetry; now apply N.eqb_neq).
  reflexivity.
Qed.

Lemma Number_of_N_idempotent v :
  Number_of_N (Number_of_N v) = Number_of_N v.
Proof.
  destruct (N.lt_ge_cases v (2 ^ 53)) as [Hs|Hl].
  - rewrite (Number_of_N_safe Hs). exact (Number_of_N_safe Hs).
  - assert (Hi : Number_of_N Infinity = Infinity) by (vm_compute; reflexivity).
    assert (Hv : (0 < v)%N).
    { apply (N.lt_le_trans _ (2 ^ 53)); [reflexivity | exact Hl]. }
    assert (HL : (53 <= N.log2 v)%N) by (apply N.log2_le_pow2; assumption).
    destruct (N.log2_spec v Hv) as [Hlow Hup].
    unfold Number_of_N at 2. unfold Number_of_N at 2.
    set (k := (N.log2 v - 52)%N) in *. cbv zeta.
    set (q := N.shiftr v k).
    assert (Hk : N.log2 v = (k + 52)%N) by lia.
    assert (Hq : (2 ^ 52 <= q < 2 ^ 53)%N).
    { unfold q. rewrite N.shiftr_div_pow2. split.
      - apply N.div_le_lower_bound; [apply N.pow_nonzero; discriminate|].
        rewrite <- N.pow_add_r, <- Hk. exact Hlow.
      - apply N.Div0.div_lt_upper_bound.
        rewrite <- N.pow_add_r. replace (k + 53)%N with (N.succ (N.log2 v)) by lia.
        exact Hup. }
    match goal with
    | |- context [N.shiftl (if ?c then _ else _) k] => destruct c
    end.
    + rewrite N.shiftl_mul_pow2.
      destruct (N.eq_dec (q + 1) (2 ^ 53)) as [E|E].
      * rewrite E.
        replace (2 ^ 53 * 2 ^ k)%N with (2 ^ 52 * 2 ^ (k + 1))%N
          by (rewrite <- !N.pow_add_r; f_equal; lia).
        destruct (N.min_spec (2 ^ 52 * 2 ^ (k + 1)) Infinity) as [[_ Em]|[_ Em]];
          rewrite Em; [|exact Hi].
        rewrite Number_of_N_exact by (split; [lia | reflexivity]).
        exact Em.
      * destruct (N.min_spec ((q + 1) * 2 ^ k) Infinity) as [[_ Em]|[_ Em]];
          rewrite Em; [|exact Hi].
        rewrite Number_of_N_exact by lia. exact Em.
    + rewrite N.shiftl_mul_pow2.
      destruct (N.min_spec (q * 2 ^ k) Infinity) as [[_ Em]|[_ Em]];
        rewrite Em; [|exact Hi].
      rewrite Number_of_N_exact by exact Hq. exact Em.
Qed.

(** The subtraction of the source rounds the difference of two numbers;
    the test against 180 gives what it gives on the difference itself,
    which is why [filter_loop] does not round. *)
Lemma rounded_gap_test z : (180 <? Number_of_Z z)%Z = (180 <? z)%Z.
Proof.
  destruct z as [|p|p]; [reflexivity| |].
  - cbn [Number_of_Z Z.to_N].
    destruct (N.lt_ge_cases (Npos p) (2 ^ 53)) as [Hs|Hl].
    + now rewrite Number_of_N_safe.
    + pose proof (Number_of_N_large Hl) as H.
      change (2 ^ 53)%N with 9007199254740992%N in *.
      transitivity true; [|symmetry]; apply Z.ltb_lt; lia.
  - cbn [Number_of_Z]. transitivity false; [|symmetry]; apply Z.ltb_ge; lia.
Qed.

(** A run of digits whose value is below 2^53 is read as that value. *)
Lemma parseInt_safe d :
  (parse_digits 0 d < 2 ^ 53)%N -> parseInt d = parse_digits 0 d.
Proof. apply Number_of_N_safe. Qed.

Lemma shortest_from_safe x n :
  (x < 2 ^ 53)%N -> forall fuel k, shortest_from x n k fuel = x.
Proof.
  intros Hx. induction fuel as [|fuel IH]; intros k; [reflexivity|].
  cbn [shortest_from]. set (p := (10 ^ N.of_nat (n - k))%N).
  assert (Hp : p <> 0%N) by (apply N.pow_nonzero; discriminate).
  cbv zeta. set (lo := (x / p * p)%N).
  assert (Hlo : (lo <= x)%N)
    by (unfold lo; rewrite N.mul_comm; apply N.Div0.mul_div_le).
  assert (Hhi : (x < lo + p)%N).
  { unfold lo. pose proof (N.mul_succ_div_gt x p Hp). lia. }
  assert (Rhi : reads_as x (lo + p) = false).
  { unfold reads_as. apply N.eqb_neq. intros E.
    destruct (N.lt_ge_cases (lo + p) (2 ^ 53)) as [Hs|Hl].
    - rewrite Number_of_N_safe in E by exact Hs. lia.
    - apply Number_of_N_large in Hl. rewrite E in Hl.
      apply (N.lt_irrefl x), (N.lt_le_trans _ _ _ Hx Hl). }
  rewrite Rhi. destruct (reads_as x lo) eqn:Rlo; [|apply IH].
  unfold reads_as in Rlo. apply N.eqb_eq in Rlo.
  rewrite Number_of_N_safe in Rlo; [exact Rlo|].
  apply (N.le_lt_trans _ _ _ Hlo Hx).
Qed.

(** Below 2^53 a number is written with all its digits. *)
Lemma Number_toString_safe x :
  (x < 2 ^ 53)%N -> Number_toString x = decimal x.
Proof.
  intros Hx. unfold Number_toString, shortest.
  rewrite shortest_from_safe by exact Hx.
  assert (Hi : (Infinity <=? x)%N = false).
  { apply N.leb_gt, (N.lt_trans _ _ _ Hx). unfold Infinity.
    apply N.pow_lt_mono_r; reflexivity. }
  assert (He : (x <? 10 ^ 21)%N = true).
  { apply N.ltb_lt, (N.lt_trans _ _ _ Hx). reflexivity. }
  now rewrite Hi, He.
Qed.

Lemma strip_zeros_digits ds :
  forallb is_digit ds = true -> forallb is_digit (strip_zeros ds) = true.
Proof.
  induction ds as [|d ds IH]; [reflexivity|].
  cbn [forallb strip_zeros]. intros H. apply andb_true_iff in H as [Hd Hds].
  specialize (IH Hds). destruct (strip_zeros ds) as [|t ts].
  - destruct (Ascii.eqb d "0"); [reflexivity|]. cbn [forallb]. now rewrite Hd.
  - cbn [forallb] in *. now rewrite Hd, IH.
Qed.

(** ** The renderer *)

Lemma render_frames_records this more : forall acc last,
  fst (fold_left (KeyFrameCollection.render_frame this) more (acc, Some last))
  = acc ++ records (KeyFrameCollection.keyFrames this)
                   (KeyFrame.pts_time last) more.
Proof.
  induction more as [|f more IH]; intros acc last; simpl.
  - now rewrite app_nil_r.
  - rewrite IH. now rewrite <- app_assoc.
Qed.

Lemma generate_records l :
  KeyFrameCollection.generateChapterMetadata (KeyFrameCollection.mk l)
  = KeyFrameCollection.header ++ records l 0 l.
Proof.
  unfold KeyFrameCollection.generateChapterMetadata.
  cbn [KeyFrameCollection.keyFrames].
  destruct l as [|f more]; cbn [fold_left fst records].
  - symmetry. apply app_nil_r.
  - unfold KeyFrameCollection.render_frame at 2.
    rewrite render_frames_records. cbn [KeyFrameCollection.keyFrames].
    unfold indexOf. cbn [indexOf_from]. rewrite Nat.eqb_refl.
    now rewrite <- app_assoc.
Qed.

(** *** Reading a chapter document back *)

Lemma split_lines_line l s :
  no_LF l = true -> split_lines (l ++ LF :: s) = l :: split_lines s.
Proof.
  unfold no_LF. induction l as [|c l IH]; intros H.
  - reflexivity.
  - cbn [forallb] in H. apply andb_true_iff in H as [Hc Hl].
    apply negb_true_iff in Hc. cbn [app split_lines].
    now rewrite Hc, (IH Hl).
Qed.

Lemma no_LF_app a b : no_LF (a ++ b) = no_LF a && no_LF b.
Proof. apply forallb_app. Qed.

Lemma no_LF_digits d : forallb is_digit d = true -> no_LF d = true.
Proof.
  unfold no_LF. induction d as [|c d IH]; cbn [forallb]; [reflexivity|].
  intros H. apply andb_true_iff in H as [Hc Hd]. rewrite (IH Hd).
  destruct (Ascii.eqb c LF) eqn:E; [|reflexivity].
  apply Ascii.eqb_eq in E. subst c. discriminate.
Qed.

Lemma no_LF_number name n :
  no_LF name = true -> no_LF (name ++ decimal n) = true.
Proof.
  intros H. now rewrite no_LF_app, H, no_LF_digits by apply decimal_digits.
Qed.

(** However a number is written, there is no line feed in it. *)
Lemma Number_toString_no_LF x : no_LF (Number_toString x) = true.
Proof.
  unfold Number_toString. destruct (Infinity <=? x)%N; [reflexivity|].
  cbv zeta. destruct (shortest x <? 10 ^ 21)%N.
  - apply no_LF_digits, decimal_digits.
  - unfold exponential. cbv zeta.
    pose proof (strip_zeros_digits _ (decimal_digits (shortest x))) as Hs.
    set (e := decimal (N.of_nat (length (decimal (shortest x)) - 1))).
    assert (He : no_LF (str "e+" ++ e) = true) by now apply no_LF_number.
    destruct (strip_zeros (decimal (shortest x))) as [|d [|d' more]];
      [reflexivity| |].
    + change (no_LF ([d] ++ str "e+" ++ e) = true).
      now rewrite no_LF_app, He, no_LF_digits.
    + change (no_LF ((d :: "."%char :: d' :: more) ++ str "e+" ++ e) = true).
      rewrite no_LF_app, He, andb_true_r.
      cbn [forallb] in Hs. apply andb_true_iff in Hs as [Hd Hm].
      change (no_LF ([d] ++ str "." ++ d' :: more) = true).
      rewrite !no_LF_app, (no_LF_digits (d' :: more)) by exact Hm.
      rewrite no_LF_digits by (cbn [forallb]; now rewrite Hd).
      reflexivity.
Qed.

Lemma no_LF_Number name x :
  no_LF name = true -> no_LF (name ++ Number_toString x) = true.
Proof. intros H. now rewrite no_LF_app, H, Number_toString_no_LF. Qed.

Lemma skipn_length_app (l t : text) : skipn (length l) (l ++ t) = t.
Proof. induction l; simpl; auto. Qed.

Lemma field_value_hit name n :
  field_value name (name ++ decimal n) = Some n.
Proof.
  unfold field_value.
  rewrite starts_with_app, skipn_length_app.
  rewrite <- (app_nil_r (decimal n)).
  now rewrite parse_decimal.
Qed.

Lemma field_value_Number name x :
  (x < 2 ^ 53)%N -> field_value name (name ++ Number_toString x) = Some x.
Proof. intros H. rewrite Number_toString_safe by exact H. apply field_value_hit. Qed.

(** The five lines of a record, cut out of the document. *)
Lemma split_lines_chapter start end_ number doc :
  split_lines (KeyFrameCollection.chapter start end_ number ++ doc)
  = str "[CHAPTER]"
    :: str "TIMEBASE=1/1"
    :: (str "START=" ++ Number_toString start)
    :: (str "END=" ++ Number_toString end_)
    :: (str "title=Chapter " ++ decimal (Z.to_N number))
    :: split_lines doc.
Proof.
  unfold KeyFrameCollection.chapter.
  repeat rewrite <- app_assoc. cbn [app].
  rewrite split_lines_line by reflexivity.
  rewrite split_lines_line by reflexivity.
  rewrite (app_assoc (str "START=")).
  rewrite split_lines_line by (now apply no_LF_Number).
  rewrite (app_assoc (str "END=")).
  rewrite split_lines_line by (now apply no_LF_Number).
  rewrite (app_assoc (str "title=Chapter ")).
  rewrite split_lines_line by (now apply no_LF_number).
  reflexivity.
Qed.

Lemma field_values_chapter_START start end_ number doc :
  (start < 2 ^ 53)%N ->
  field_values (str "START=")
               (KeyFrameCollection.chapter start end_ number ++ doc)
  = start :: field_values (str "START=") doc.
Proof.
  intros H. unfold field_values. rewrite split_lines_chapter. cbn [flat_map].
  rewrite (field_value_Number _ H). reflexivity.
Qed.

Lemma field_values_chapter_END start end_ number doc :
  (end_ < 2 ^ 53)%N ->
  field_values (str "END=")
               (KeyFrameCollection.chapter start end_ number ++ doc)
  = end_ :: field_values (str "END=") doc.
Proof.
  intros H. unfold field_values. rewrite split_lines_chapter. cbn [flat_map].
  rewrite (field_value_Number _ H). reflexivity.
Qed.

Lemma field_values_records_START all l : forall start,
  (start < 2 ^ 53)%N -> written_exactly l ->
  field_values (str "START=") (records all start l)
  = removelast (start :: map KeyFrame.pts_time l).
Proof.
  induction l as [|f more IH]; intros start Hs Hl; [reflexivity|].
  inversion Hl as [|? ? Hf Hmore]; subst.
  cbn [records map].
  rewrite field_values_chapter_START, IH by assumption. reflexivity.
Qed.

Lemma field_values_records_END all l : forall start,
  written_exactly l ->
  field_values (str "END=") (records all start l) = map KeyFrame.pts_time l.
Proof.
  induction l as [|f more IH]; intros start Hl; [reflexivity|].
  inversion Hl as [|? ? Hf Hmore]; subst.
  cbn [records map].
  rewrite field_values_chapter_END, IH by assumption. reflexivity.
Qed.

Lemma field_values_header name doc :
  starts_with name (str ";FFMETADATA1") = false ->
  field_values name (KeyFrameCollection.header ++ doc) = field_values name doc.
Proof.
  intros H. unfold field_values, KeyFrameCollection.header.
  rewrite <- app_assoc. cbn [app].
  rewrite split_lines_line by reflexivity. cbn [flat_map].
  unfold field_value at 1. now rewrite H.
Qed.

Lemma combine_removelast (ts : list N) : forall start,
  combine (removelast (start :: ts)) ts = combine (start :: ts) ts.
Proof.
  induction ts as [|t ts IH]; intros start; [reflexivity|].
  change (removelast (start :: t :: ts)) with (start :: removelast (t :: ts)).
  cbn [combine]. now rewrite IH.
Qed.

(** C6, as stated, fails.  A keyframe at 10^21, as the constructor makes
    it from that run of digits, is written [END=1e+21], which a reader of
    the document takes for 1; one at 2^60 is written
    [END=1152921504606847000], the shortest digits that stand for the same
    number, which is another integer.  So reading the document back does
    not always give the timestamps it was made from. *)
Lemma exponent_form_not_read_back :
  let document b :=
    KeyFrameCollection.generateChapterMetadata (KeyFrameCollection.mk [b]) in
  (KeyFrame.new 0 (str "pts_time=1000000000000000000000 pkt_pos=0")
   = Ok (KeyFrame.mk 0 (10 ^ 21) 0) /\
   document (KeyFrame.mk 0 (10 ^ 21) 0)
   = unlines [str ";FFMETADATA1";
              str "[CHAPTER]"; str "TIMEBASE=1/1"; str "START=0";
              str "END=1e+21"; str "title=Chapter 1"] /\
   reparse_start_end (document (KeyFrame.mk 0 (10 ^ 21) 0)) = [(0, 1)]%N /\
   KeyFrame.new 0 (str "pts_time=1152921504606846976 pkt_pos=0")
   = Ok (KeyFrame.mk 0 (2 ^ 60) 0) /\
   document (KeyFrame.mk 0 (2 ^ 60) 0)
   = unlines [str ";FFMETADATA1";
              str "[CHAPTER]"; str "TIMEBASE=1/1"; str "START=0";
              str "END=1152921504606847000"; str "title=Chapter 1"]) /\
  ~ (forall boundaries : list KeyFrame.t,
       reparse_start_end
         (KeyFrameCollection.generateChapterMetadata
            (KeyFrameCollection.mk boundaries))
       = combine (0%N :: map KeyFrame.pts_time boundaries)
                 (map KeyFrame.pts_time boundaries)).
Proof.
  split; [vm_compute; repeat split|].
  intros H. specialize (H [KeyFrame.mk 0 (10 ^ 21) 0]).
  vm_compute in H. discriminate H.
Qed.

(** C6, amended. For every boundary subsequence whose timestamps are below
    2^53, the rendered document is the header followed by one record per
    boundary, record i ending at the i-th boundary, record 1 starting at 0
    and record i > 1 starting at boundary i-1; read back, it gives the
    timestamps of the subsequence as the [END] values, and as the [START]
    values 0 followed by all but the last of them. *)
Theorem render_reparse_round_trip (boundaries : list KeyFrame.t) :
  written_exactly boundaries ->
  let doc := KeyFrameCollection.generateChapterMetadata
               (KeyFrameCollection.mk boundaries) in
  let times := map KeyFrame.pts_time boundaries in
  doc = KeyFrameCollection.header ++ records boundaries 0 boundaries /\
  field_values (str "END=") doc = times /\
  field_values (str "START=") doc = removelast (0%N :: times) /\
  reparse_start_end doc = combine (0%N :: times) times.
Proof.
  intros Hb. cbv zeta. unfold reparse_start_end. rewrite generate_records.
  split; [reflexivity|].
  rewrite !field_values_header by reflexivity.
  rewrite field_values_records_START, field_values_records_END
    by (assumption || reflexivity).
  repeat split. apply combine_removelast.
Qed.

Lemma render_reparse_round_trip_witness :
  reparse_start_end
    (KeyFrameCollection.generateChapterMetadata
       (KeyFrameCollection.mk [KeyFrame.mk 0 200 9000; KeyFrame.mk 1 400 20000]))
  = [(0, 200); (200, 400)]%N.
Proof.
  refine (proj2 (proj2 (proj2
    (@render_reparse_round_trip
       [KeyFrame.mk 0 200 9000; KeyFrame.mk 1 400 20000] _)))).
  repeat constructor.
Defined.

(** C4. For keyframes at 0, 50, 200, 210 and 400, whatever their byte
    offsets, the selector returns the keyframes at 200 and 400, and the
    renderer makes of them the header and two records, from 0 to 200 and
    from 200 to 400. *)
Theorem example_0_50_200_210_400 (p0 p1 p2 p3 p4 : N) (buffer : text)
        (promise : Promise KeyFrameCollection.t) :
  let frames := [KeyFrame.mk 0 0 p0; KeyFrame.mk 1 50 p1; KeyFrame.mk 2 200 p2;
                 KeyFrame.mk 3 210 p3; KeyFrame.mk 4 400 p4] in
  let selected := [KeyFrame.mk 2 200 p2; KeyFrame.mk 4 400 p4] in
  KeyFrameCollector.filterFrames (KeyFrameCollector.mk buffer frames promise)
  = Ok selected /\
  KeyFrameCollection.generateChapterMetadata (KeyFrameCollection.mk selected)
  = unlines [str ";FFMETADATA1";
             str "[CHAPTER]"; str "TIMEBASE=1/1"; str "START=0"; str "END=200";
             str "title=Chapter 1";
             str "[CHAPTER]"; str "TIMEBASE=1/1"; str "START=200"; str "END=400";
             str "title=Chapter 2"] /\
  reparse_start_end
    (KeyFrameCollection.generateChapterMetadata (KeyFrameCollection.mk selected))
  = [(0, 200); (200, 400)]%N.
Proof. repeat split. Qed.

(** C5. A KeyFrame Sequence with fewer than two elements gives the empty
    boundary list, without throwing, and the empty selection is rendered as
    the header line alone, with no chapter record. *)
Theorem fewer_than_two_keyframes (this : KeyFrameCollector.t) :
  length (KeyFrameCollector.keyFrames this) < 2 ->
  KeyFrameCollector.filterFrames this = Ok [] /\
  KeyFrameCollection.generateChapterMetadata (KeyFrameCollection.mk [])
  = unlines [str ";FFMETADATA1"] /\
  occurs (str "[CHAPTER]")
         (KeyFrameCollection.generateChapterMetadata (KeyFrameCollection.mk []))
  = false.
Proof.
  intros H. rewrite filterFrames_keep.
  destruct (KeyFrameCollector.keyFrames this) as [|f [|g l]]; simpl in H;
    try lia; repeat split.
  cbn [map]. now rewrite filter_mask_first.
Qed.

Lemma fewer_than_two_keyframes_witness :
  let this := KeyFrameCollector.mk [] [KeyFrame.mk 0 500 0] Pending in
  KeyFrameCollector.filterFrames this = Ok [] /\
  KeyFrameCollection.generateChapterMetadata (KeyFrameCollection.mk [])
  = unlines [str ";FFMETADATA1"] /\
  occurs (str "[CHAPTER]")
         (KeyFrameCollection.generateChapterMetadata (KeyFrameCollection.mk []))
  = false.
Proof.
  apply (fewer_than_two_keyframes
           (KeyFrameCollector.mk [] [KeyFrame.mk 0 500 0] Pending)).
  simpl. lia.
Defined.

(** ** Byte offsets do not reach the output *)

Lemma indexOf_from_fresh pre f more : forall i,
  ~ In (KeyFrame.oid f) (map KeyFrame.oid pre) ->
  indexOf_from i (pre ++ f :: more) f = (i + Z.of_nat (length pre))%Z.
Proof.
  induction pre as [|g pre IH]; intros i H; simpl.
  - rewrite Nat.eqb_refl. lia.
  - simpl in H. destruct (Nat.eqb_spec (KeyFrame.oid g) (KeyFrame.oid f)) as [E|E].
    + tauto.
    + rewrite IH by tauto. lia.
Qed.

Lemma records_distinct pre l : forall start,
  NoDup (map KeyFrame.oid (pre ++ l)) ->
  records (pre ++ l) start l
  = records_by_position (Z.of_nat (length pre)) start (map KeyFrame.pts_time l).
Proof.
  revert pre. induction l as [|f more IH]; intros pre start H; [reflexivity|].
  cbn [records map records_by_position].
  unfold indexOf. rewrite indexOf_from_fresh.
  - replace (pre ++ f :: more) with ((pre ++ [f]) ++ more) in *
      by now rewrite <- app_assoc.
    rewrite IH by exact H. rewrite length_app, Nat2Z.inj_add. reflexivity.
  - rewrite map_app in H. apply NoDup_remove_2 in H.
    intros Hin. apply H. apply in_or_app. now left.
Qed.

Lemma increasing_distinct l :
  StronglySorted earlier l -> one_object_per_identity l ->
  NoDup (map KeyFrame.oid l).
Proof.
  induction 1 as [|f l Hs IH Hf]; intros Hw; simpl; constructor.
  - intros Hin. apply in_map_iff in Hin as (g & Eg & Hg).
    rewrite Forall_forall in Hf. specialize (Hf _ Hg).
    assert (f = g) by (apply Hw; simpl; auto). subst g.
    unfold earlier in Hf. lia.
  - apply IH. intros a b Ha Hb. apply Hw; now right.
Qed.

Lemma subseq_In {A : Type} (s l : list A) x : subseq s l -> In x s -> In x l.
Proof.
  induction 1; simpl; intros Hin; auto.
  destruct Hin; auto.
Qed.

Lemma map_keep {A B : Type} (g : A -> B) mask : forall l,
  map g (keep mask l) = keep mask (map g l).
Proof.
  induction mask as [|[] m IH]; intros [|x l]; simpl; auto.
  now rewrite IH.
Qed.

(** What the renderer makes of a selection: a function of its timestamps. *)
Lemma generate_selected l mask :
  one_object_per_identity l ->
  StronglySorted earlier (keep mask l) ->
  KeyFrameCollection.generateChapterMetadata
    (KeyFrameCollection.mk (keep mask l))
  = KeyFrameCollection.header
    ++ records_by_position 0 0 (keep mask (map KeyFrame.pts_time l)).
Proof.
  intros Hw Hs. rewrite generate_records, <- map_keep.
  rewrite <- (records_distinct [] (keep mask l)); [reflexivity|].
  apply increasing_distinct; [exact Hs|].
  intros f g Hf Hg. apply Hw; eapply subseq_In; eauto using keep_subseq.
Qed.

Lemma filter_keep_sorted l :
  Sorted gap_after (keep (filter_mask (map KeyFrame.pts_time l)) l).
Proof.
  destruct l as [|first others]; [constructor|].
  cbn [map]. rewrite filter_mask_first. cbn [keep].
  apply (select_sorted others first).
Qed.

(** C10. Two KeyFrame Sequences that agree on the timestamps, position by
    position, whatever their byte offsets: the selector keeps the same
    positions of both, the kept timestamps are the same, and the two
    selections are rendered as the same document.  (Each sequence holds
    one object per identity, as any array of references does.) *)
Theorem byte_offsets_do_not_interfere (this1 this2 : KeyFrameCollector.t) :
  let l1 := KeyFrameCollector.keyFrames this1 in
  let l2 := KeyFrameCollector.keyFrames this2 in
  map KeyFrame.pts_time l1 = map KeyFrame.pts_time l2 ->
  one_object_per_identity l1 -> one_object_per_identity l2 ->
  exists mask,
    KeyFrameCollector.filterFrames this1 = Ok (keep mask l1) /\
    KeyFrameCollector.filterFrames this2 = Ok (keep mask l2) /\
    map KeyFrame.pts_time (keep mask l1) = map KeyFrame.pts_time (keep mask l2) /\
    KeyFrameCollection.generateChapterMetadata (KeyFrameCollection.mk (keep mask l1))
    = KeyFrameCollection.generateChapterMetadata (KeyFrameCollection.mk (keep mask l2)).
Proof.
  intros l1 l2 Ht W1 W2. exists (filter_mask (map KeyFrame.pts_time l1)).
  split; [apply filterFrames_keep|].
  split; [rewrite Ht; apply filterFrames_keep|].
  split; [now rewrite !map_keep, Ht|].
  rewrite (generate_selected _ W1)
    by apply Sorted_gap_earlier, filter_keep_sorted.
  rewrite Ht.
  rewrite (generate_selected _ W2)
    by apply Sorted_gap_earlier, filter_keep_sorted.
  reflexivity.
Qed.

Lemma byte_offsets_do_not_interfere_witness :
  let this1 := KeyFrameCollector.mk []
                 [KeyFrame.mk 0 0 48; KeyFrame.mk 1 200 9000] Pending in
  let this2 := KeyFrameCollector.mk []
                 [KeyFrame.mk 0 0 7; KeyFrame.mk 1 200 11] Pending in
  exists mask,
    KeyFrameCollector.filterFrames this1
    = Ok (keep mask (KeyFrameCollector.keyFrames this1)) /\
    KeyFrameCollector.filterFrames this2
    = Ok (keep mask (KeyFrameCollector.keyFrames this2)) /\
    map KeyFrame.pts_time (keep mask (KeyFrameCollector.keyFrames this1))
    = map KeyFrame.pts_time (keep mask (KeyFrameCollector.keyFrames this2)) /\
    KeyFrameCollection.generateChapterMetadata
      (KeyFrameCollection.mk (keep mask (KeyFrameCollector.keyFrames this1)))
    = KeyFrameCollection.generateChapterMetadata
        (KeyFrameCollection.mk (keep mask (KeyFrameCollector.keyFrames this2))).
Proof.
  intros this1 this2.
  apply (byte_offsets_do_not_interfere this1 this2).
  - reflexivity.
  - intros f g [<-|[<-|[]]] [<-|[<-|[]]]; simpl; congruence.
  - intros f g [<-|[<-|[]]] [<-|[<-|[]]]; simpl; congruence.
Defined.

(** ** The collector: what the scan finds *)

Lemma Matches_frameRegEx s c0 y :
  Matches KeyFrameCollector.frameRegEx (mkState s c0) y ->
  exists a d b,
    s = str "[FRAME]" ++ block_text a d b ++ str "[/FRAME]" ++ rest y /\
    is_digit d = true /\
    caps y = set_cap 1 (block_text a d b) (set_cap 2 [d] c0).
Proof.
  unfold KeyFrameCollector.frameRegEx. intros H.
  apply Matches_seq_inv in H as (x1 & H1 & H).
  apply Matches_seq_inv in H as (x2 & H2 & H3).
  apply Matches_lit_inv in H1 as (E1 & C1).
  apply Matches_group_inv in H2 as (g & H2 & ->).
  apply Matches_seq_inv in H2 as (x3 & H4 & H2).
  apply Matches_seq_inv in H2 as (x4 & H5 & H2).
  apply Matches_seq_inv in H2 as (x5 & H6 & H7).
  apply Matches_star_inv in H4 as (a & E4 & _ & C4).
  apply Matches_lit_inv in H5 as (E5 & C5).
  apply Matches_group_inv in H6 as (g2 & H6 & ->).
  apply Matches_char_inv in H6 as (d & E6 & D6 & C6).
  apply Matches_star_inv in H7 as (b & E7 & _ & C7).
  apply Matches_lit_inv in H3 as (E3 & C3).
  cbn [rest caps] in *. exists a, d, b.
  assert (Ex : rest x1 = block_text a d b ++ rest g).
  { unfold block_text. rewrite E4, E5, E6, E7.
    now rewrite <- !app_assoc, <- app_comm_cons. }
  rewrite C3, C7, C6, C5, C4, C1.
  replace (consumed (rest x4) (rest g2)) with [d]
    by (rewrite E6; symmetry; apply (consumed_app [d])).
  rewrite Ex, consumed_app.
  repeat split; auto.
  now rewrite E1, Ex, E3.
Qed.

Lemma Matches_group_intro n r w t c c' :
  Matches r (mkState (w ++ t) c) (mkState t c') ->
  Matches (RGroup n r) (mkState (w ++ t) c) (mkState t (set_cap n w c')).
Proof.
  intros H. pose proof (M_group n H) as G. cbn [rest caps] in G.
  now rewrite consumed_app in G.
Qed.

Lemma Matches_frameRegEx_intro a d b z c0 :
  is_digit d = true ->
  Matches KeyFrameCollector.frameRegEx
    (mkState (str "[FRAME]" ++ block_text a d b ++ str "[/FRAME]" ++ z) c0)
    (mkState z (set_cap 1 (block_text a d b) (set_cap 2 [d] c0))).
Proof.
  intros Hd. unfold KeyFrameCollector.frameRegEx.
  eapply M_seq; [apply Matches_lit_intro|].
  eapply M_seq; [|apply Matches_lit_intro].
  apply Matches_group_intro.
  unfold block_text. rewrite <- !app_assoc, <- app_comm_cons.
  eapply M_seq; [apply Matches_star_intro, forallb_any|].
  eapply M_seq; [apply Matches_lit_intro|].
  eapply M_seq.
  - apply (Matches_group_intro 2 [d]). now constructor.
  - apply Matches_star_intro, forallb_any.
Qed.

(** What a successful search for a block reports. *)
Lemma frame_found s f :
  regexp_exec KeyFrameCollector.frameRegEx 2 s = Some f ->
  exists a d b,
    s = before f ++ str "[FRAME]" ++ block_text a d b ++ str "[/FRAME]" ++ after f /\
    is_digit d = true /\
    groups f = [Some (str "[FRAME]" ++ block_text a d b ++ str "[/FRAME]");
                Some (block_text a d b); Some [d]].
Proof.
  intros H. apply regexp_exec_spec in H as (u & y & Es & Hm & Hg & Ha & _).
  apply matcher_sound in Hm as (y' & HM & [= ->]).
  apply Matches_frameRegEx in HM as (a & d & b & Eu & Hd & Hc).
  exists a, d, b. rewrite Ha. repeat split; auto; [now rewrite Es, Eu|].
  rewrite Hg, Hc, Eu.
  replace (str "[FRAME]" ++ block_text a d b ++ str "[/FRAME]" ++ rest y)
    with ((str "[FRAME]" ++ block_text a d b ++ str "[/FRAME]") ++ rest y)
    by now rewrite <- !app_assoc.
  now rewrite consumed_app.
Qed.

(** Removing the block found makes the buffer shorter. *)
Lemma frame_replace_shorter s f :
  regexp_exec KeyFrameCollector.frameRegEx 2 s = Some f ->
  length (before f ++ after f) < length s.
Proof.
  intros H. destruct (frame_found _ H) as (a & d & b & Es & _).
  rewrite Es. rewrite !length_app.
  change (length (str "[FRAME]")) with 7. lia.
Qed.

Lemma matcher_group n r x k :
  matcher (RGroup n r) x k
  = matcher r x (fun y => k (mkState (rest y)
                    (set_cap n (consumed (rest x) (rest y)) (caps y)))).
Proof. reflexivity. Qed.

Lemma matcher_lit_inv l s c k y :
  matcher (RLit l) (mkState s c) k = Some y ->
  exists t, s = l ++ t /\ k (mkState t c) = Some y.
Proof.
  intros H. destruct (starts_with l s) eqn:E.
  - apply starts_with_inv in E as [t ->]. rewrite matcher_lit in H. eauto.
  - now rewrite matcher_lit_fail in H.
Qed.

Lemma matcher_char_inv cs s c k y :
  matcher (RChar cs) (mkState s c) k = Some y ->
  exists a t, s = a :: t /\ cs_match cs a = true /\ k (mkState t c) = Some y.
Proof.
  simpl. destruct s as [|a t]; [discriminate|].
  destruct (cs_match cs a) eqn:E; [eauto | discriminate].
Qed.

Lemma occurs_false_intro l s :
  (forall a b, s = a ++ b -> starts_with l b = false) -> occurs l s = false.
Proof.
  induction s as [|x s IH]; intros H.
  - simpl. now rewrite (H [] []).
  - change (starts_with l (x :: s) || occurs l s = false).
    rewrite (H [] (x :: s) eq_refl), IH; [reflexivity|].
    intros a b ->. now apply (H (x :: a) b).
Qed.

(** The closing marker of the block found is the last one of the buffer:
    the second [.*] gives back as little as it can. *)
Lemma frame_match_close u y :
  match_here KeyFrameCollector.frameRegEx 2 u = Some y ->
  occurs (str "[/FRAME]") (rest y) = false.
Proof.
  unfold match_here, KeyFrameCollector.frameRegEx. intros H.
  rewrite matcher_seq in H. apply matcher_lit_inv in H as (t & -> & H).
  rewrite matcher_seq, matcher_group, matcher_seq, matcher_star in H.
  apply star_any_spec in H as (a & b & -> & H & _).
  rewrite matcher_seq in H. apply matcher_lit_inv in H as (t2 & -> & H).
  rewrite matcher_seq, matcher_group in H.
  apply matcher_char_inv in H as (d & t3 & -> & Hd & H).
  cbn [rest caps] in H. rewrite matcher_star in H.
  apply star_any_spec in H as (a3 & b4 & -> & H & Hl).
  cbn [rest caps] in H, Hl.
  apply matcher_lit_inv in H as (z & -> & [= <-]). cbn [rest].
  apply occurs_false_intro. intros a' b' ->.
  destruct (starts_with (str "[/FRAME]") b') eqn:E; [|reflexivity].
  apply starts_with_inv in E as [z' ->].
  specialize (Hl (str "[/FRAME]" ++ a') (str "[/FRAME]" ++ z')).
  rewrite matcher_lit in Hl.
  discriminate Hl; [now rewrite <- app_assoc | discriminate].
Qed.

Lemma app_eq_app_split {A : Type} (x1 x2 y1 y2 : list A) :
  x1 ++ x2 = y1 ++ y2 ->
  exists l, (x1 = y1 ++ l /\ y2 = l ++ x2) \/ (y1 = x1 ++ l /\ x2 = l ++ y2).
Proof.
  revert y1; induction x1 as [|a x1 IH]; intros y1 E; simpl in E.
  - exists y1. now right.
  - destruct y1 as [|b y1]; simpl in E.
    + exists (a :: x1). left. now rewrite <- E.
    + injection E as -> E. destruct (IH _ E) as [l [[-> ->]|[-> ->]]];
        exists l; [left | right]; auto.
Qed.

(** After the block found is removed, the buffer holds no other block:
    the match went from the first opening marker to the last closing one. *)
Lemma frame_no_second s f :
  regexp_exec KeyFrameCollector.frameRegEx 2 s = Some f ->
  regexp_exec KeyFrameCollector.frameRegEx 2 (before f ++ after f) = None.
Proof.
  intros H.
  destruct (regexp_exec KeyFrameCollector.frameRegEx 2 (before f ++ after f))
    as [f'|] eqn:E'; [exfalso | reflexivity].
  pose proof (frame_found _ H) as (a & d & b & Es & Hd & _).
  apply regexp_exec_spec in H as (u & y & Es' & Hm & _ & Ha & Hleft).
  pose proof (frame_match_close _ Hm) as Hclose. rewrite <- Ha in Hclose.
  pose proof (frame_found _ E') as (a' & d' & b' & E2 & _ & _).
  assert (Hu : u = str "[FRAME]" ++ block_text a d b ++ str "[/FRAME]" ++ after f).
  { rewrite Es in Es'. now apply app_inv_head in Es'. }
  (* a closing marker in [after f] is excluded *)
  assert (Hno : forall p q, after f <> p ++ str "[/FRAME]" ++ q).
  { intros p q Eq. rewrite Eq, occurs_intro in Hclose. discriminate. }
  apply app_eq_app_split in E2 as [l [[Eb Eu]|[Eb Eu]]].
  - (* the second match starts inside [before f] *)
    destruct l as [|l0 l].
    + simpl in Eu. apply (Hno (str "[FRAME]" ++ block_text a' d' b') (after f')).
      now rewrite <- Eu, <- !app_assoc.
    + symmetry in Eu. apply app_eq_app_split in Eu as [m [[El Et]|[El Et]]].
      * (* the opening marker lies in [before f]: an earlier match *)
        assert (Hm' : match_here KeyFrameCollector.frameRegEx 2 ((l0 :: l) ++ u)
                      <> None).
        { rewrite El, Hu.
          replace ((str "[FRAME]" ++ m) ++
                   str "[FRAME]" ++ block_text a d b ++ str "[/FRAME]" ++ after f)
            with (str "[FRAME]" ++
                  block_text (m ++ str "[FRAME]" ++ a) d b ++ str "[/FRAME]" ++ after f)
            by (unfold block_text; now rewrite <- !app_assoc).
          destruct (matcher_complete
                      (@Matches_frameRegEx_intro (m ++ str "[FRAME]" ++ a) d b
                         (after f) [None; None; None] Hd)
                      Some eq_refl) as [z Hz].
          unfold match_here. cbn [repeat]. now rewrite Hz. }
        apply Hm'. apply (Hleft (before f')); [exact Eb | discriminate].
      * (* the opening marker reaches into [after f] *)
        apply (Hno (m ++ block_text a' d' b') (after f')).
        now rewrite Et, <- !app_assoc.
  - (* the second match starts inside [after f] *)
    apply (Hno (l ++ str "[FRAME]" ++ block_text a' d' b') (after f')).
    now rewrite Eu, <- !app_assoc.
Qed.

(** *** A buffer with one block

    On a buffer that holds one complete block, with no opening marker
    before it, no closing marker after it and its [key_frame=] field the
    last one, the search reports exactly that block. *)

Lemma starts_with_within (l x y : text) :
  starts_with l (x ++ y) = true -> length l <= length x ->
  starts_with l x = true.
Proof.
  revert x; induction l as [|c l IH]; intros [|c' x] H Hl; simpl in *;
    try reflexivity; try lia.
  apply andb_true_iff in H as [Hc H]. rewrite Hc. simpl.
  apply IH; [exact H | lia].
Qed.

Lemma regexp_exec_skip r n pre u y :
  (forall p1 p2, pre = p1 ++ p2 -> p2 <> [] -> match_here r n (p2 ++ u) = None) ->
  match_here r n u = Some y ->
  regexp_exec r n (pre ++ u)
  = Some (mkFound pre (set_cap 0 (consumed u (rest y)) (caps y)) (rest y)).
Proof.
  intros Hleft Hm. induction pre as [|c pre IH].
  - now apply regexp_exec_here.
  - rewrite regexp_exec_unfold.
    rewrite (Hleft [] (c :: pre) eq_refl) by discriminate.
    cbn [app]. rewrite IH; [reflexivity|].
    intros p1 p2 -> Hp. now apply (Hleft (c :: p1) p2).
Qed.

Lemma digit_skipped l0 l d :
  is_digit l0 = false -> is_digit d = true -> skipped (l0 :: l) [d] = true.
Proof.
  intros H0 Hd. cbn [skipped clash].
  destruct (Ascii.eqb l0 d) eqn:E; [|reflexivity].
  apply Ascii.eqb_eq in E. congruence.
Qed.

Lemma frame_match_exact a d b post :
  is_digit d = true ->
  occurs (str "key_frame=") (b ++ str "[/FRAME]" ++ post) = false ->
  occurs (str "[/FRAME]") post = false ->
  match_here KeyFrameCollector.frameRegEx 2
    (str "[FRAME]" ++ block_text a d b ++ str "[/FRAME]" ++ post)
  = Some (mkState post [None; Some (block_text a d b); Some [d]]).
Proof.
  intros Hd Ok Oc. unfold match_here, KeyFrameCollector.frameRegEx.
  rewrite matcher_seq, matcher_lit, matcher_seq, matcher_group.
  rewrite matcher_seq, matcher_star.
  unfold block_text at 1. rewrite <- !app_assoc, <- app_comm_cons.
  apply star_any_last.
  - rewrite matcher_seq, matcher_lit, matcher_seq, matcher_group.
    cbn [matcher rest caps cs_match]. rewrite Hd.
    apply star_any_last.
    + cbn [rest caps]. rewrite matcher_lit.
      change (d :: b ++ str "[/FRAME]" ++ post)
        with ([d] ++ b ++ str "[/FRAME]" ++ post).
      rewrite consumed_app.
      replace (a ++ str "key_frame=" ++ [d] ++ b ++ str "[/FRAME]" ++ post)
        with (block_text a d b ++ str "[/FRAME]" ++ post)
        by (unfold block_text; now rewrite <- !app_assoc).
      now rewrite consumed_app.
    + intros x u E Hx. cbn [rest caps]. apply matcher_lit_fail.
      apply last_occurrence
        with (l0 := "["%char) (l := str "/FRAME]") (t := post) (x := x);
        [reflexivity | exact Oc | exact E | exact Hx].
  - intros x u E Hx. rewrite matcher_seq. apply matcher_lit_fail.
    apply last_occurrence
      with (l0 := "k"%char) (l := str "ey_frame=")
           (t := d :: b ++ str "[/FRAME]" ++ post) (x := x);
      [reflexivity | | exact E | exact Hx].
    apply (occurs_skip _ [d]); [now apply digit_skipped | exact Ok].
Qed.

Lemma frame_exec_exact pre a d b post :
  occurs (str "[FRAME]") (pre ++ str "[FRAME") = false ->
  is_digit d = true ->
  occurs (str "key_frame=") (b ++ str "[/FRAME]" ++ post) = false ->
  occurs (str "[/FRAME]") post = false ->
  regexp_exec KeyFrameCollector.frameRegEx 2
    (pre ++ str "[FRAME]" ++ block_text a d b ++ str "[/FRAME]" ++ post)
  = Some (mkFound pre
            [Some (str "[FRAME]" ++ block_text a d b ++ str "[/FRAME]");
             Some (block_text a d b); Some [d]]
            post).
Proof.
  intros Op Hd Ok Oc.
  pose proof (@frame_match_exact a d b post Hd Ok Oc) as Hm.
  assert (Hleft : forall p1 p2, pre = p1 ++ p2 -> p2 <> [] ->
            match_here KeyFrameCollector.frameRegEx 2
              (p2 ++ str "[FRAME]" ++ block_text a d b ++ str "[/FRAME]" ++ post)
            = None).
  { intros p1 p2 -> Hp. unfold match_here, KeyFrameCollector.frameRegEx.
    rewrite matcher_seq. apply matcher_lit_fail.
    destruct (starts_with (str "[FRAME]") (p2 ++ _)) eqn:E; [exfalso|reflexivity].
    change (str "[FRAME]") with (str "[FRAME" ++ str "]") in E at 2.
    rewrite <- app_assoc, app_assoc in E.
    apply starts_with_within in E.
    - apply starts_with_inv in E as [t Et].
      rewrite <- app_assoc, Et, occurs_intro in Op. discriminate.
    - rewrite length_app. change (length (str "[FRAME]")) with 7.
      change (length (str "[FRAME")) with 6.
      destruct p2; [congruence | simpl; lia]. }
  rewrite (@regexp_exec_skip _ _ _ _ _ Hleft Hm).
  cbn [rest caps set_cap].
  replace (str "[FRAME]" ++ block_text a d b ++ str "[/FRAME]" ++ post)
    with ((str "[FRAME]" ++ block_text a d b ++ str "[/FRAME]") ++ post)
    by now rewrite <- !app_assoc.
  now rewrite consumed_app.
Qed.

(** ** The collector: [write] *)

Lemma pass_on_buffer this matches this' :
  KeyFrameCollector.pass_on this matches = Ok this' ->
  KeyFrameCollector.stringBuffer this' = KeyFrameCollector.stringBuffer this.
Proof.
  unfold KeyFrameCollector.pass_on. intros H.
  destruct (nth 2 matches None) as [flag|]; [|now injection H as <-].
  destruct (text_eqb flag (str "1")); [|now injection H as <-].
  destruct (nth 1 matches None) as [frameData|]; [|discriminate].
  destruct (KeyFrame.new _ frameData); [|discriminate].
  now injection H as <-.
Qed.

(** One evaluation of the loop condition and, when it holds, of the body. *)
Lemma scan_step fuel this :
  KeyFrameCollector.scan (S fuel) this =
  match regexp_exec KeyFrameCollector.frameRegEx 2
                    (KeyFrameCollector.stringBuffer this) with
  | None => Some (this, Returned)
  | Some f =>
      match KeyFrameCollector.pass_on this (groups f) with
      | Throw e => Some (this, Threw e)
      | Ok this' =>
          KeyFrameCollector.scan fuel
            (KeyFrameCollector.set_stringBuffer this' (before f ++ after f))
      end
  end.
Proof.
  cbn [KeyFrameCollector.scan]. unfold String_match.
  destruct (regexp_exec _ 2 (KeyFrameCollector.stringBuffer this))
    as [f|] eqn:E; [|reflexivity].
  cbn [option_map]. destruct (frame_found _ E) as (a & d & b & _ & _ & Hg).
  rewrite Hg at 1. cbn [length Nat.eqb negb].
  destruct (KeyFrameCollector.pass_on this (groups f)) as [this'|e] eqn:Ep;
    [|reflexivity].
  unfold String_replace. now rewrite (pass_on_buffer _ _ Ep), E.
Qed.

(** The loop ends: each turn shortens the buffer. *)
Lemma scan_total fuel : forall this,
  length (KeyFrameCollector.stringBuffer this) < fuel ->
  exists r, KeyFrameCollector.scan fuel this = Some r.
Proof.
  induction fuel as [|fuel IH]; intros this H; [lia|].
  rewrite scan_step.
  destruct (regexp_exec _ 2 _) as [f|] eqn:E; [|eauto].
  destruct (KeyFrameCollector.pass_on this (groups f)) as [this'|e]; [|eauto].
  apply IH. cbn [KeyFrameCollector.set_stringBuffer KeyFrameCollector.stringBuffer].
  apply frame_replace_shorter in E. lia.
Qed.

Lemma write_total this chunk :
  exists r, KeyFrameCollector.write this chunk = Some r.
Proof. apply scan_total. lia. Qed.

(** [write] as a whole: the loop body runs at most once. *)
Lemma write_spec this chunk :
  let fed := KeyFrameCollector.set_stringBuffer this
               (KeyFrameCollector.stringBuffer this ++ chunk) in
  KeyFrameCollector.write this chunk =
  match regexp_exec KeyFrameCollector.frameRegEx 2
                    (KeyFrameCollector.stringBuffer this ++ chunk) with
  | None => Some (fed, Returned)
  | Some f =>
      match KeyFrameCollector.pass_on fed (groups f) with
      | Throw e => Some (fed, Threw e)
      | Ok this' =>
          Some (KeyFrameCollector.set_stringBuffer this' (before f ++ after f),
                Returned)
      end
  end.
Proof.
  intros fed. unfold KeyFrameCollector.write. fold fed.
  rewrite scan_step. subst fed. cbn [KeyFrameCollector.stringBuffer
                                       KeyFrameCollector.set_stringBuffer].
  destruct (regexp_exec _ 2 _) as [f|] eqn:E; [|reflexivity].
  destruct (KeyFrameCollector.pass_on _ (groups f)) as [this'|e]; [|reflexivity].
  pose proof (frame_replace_shorter _ E) as Hlen.
  destruct (length (KeyFrameCollector.stringBuffer this ++ chunk)) as [|n];
    [lia|].
  rewrite scan_step. cbn [KeyFrameCollector.stringBuffer
                            KeyFrameCollector.set_stringBuffer].
  now rewrite (frame_no_second _ E).
Qed.

(** [write] when the buffer, with the chunk, holds one complete block:
    a block flagged [1] is parsed and its keyframe appended, or the parse
    error thrown; any other block is dropped.  Either way the call
    returns. *)
Lemma write_one_block this chunk pre a d b post :
  KeyFrameCollector.stringBuffer this ++ chunk
  = pre ++ str "[FRAME]" ++ block_text a d b ++ str "[/FRAME]" ++ post ->
  occurs (str "[FRAME]") (pre ++ str "[FRAME") = false ->
  is_digit d = true ->
  occurs (str "key_frame=") (b ++ str "[/FRAME]" ++ post) = false ->
  occurs (str "[/FRAME]") post = false ->
  KeyFrameCollector.write this chunk =
  if Ascii.eqb d "1" then
    match KeyFrame.new (length (KeyFrameCollector.keyFrames this))
                       (block_text a d b) with
    | Ok f =>
        Some (KeyFrameCollector.mk (pre ++ post)
                (KeyFrameCollector.keyFrames this ++ [f])
                (KeyFrameCollector.completionPromise this), Returned)
    | Throw e =>
        Some (KeyFrameCollector.mk
                (KeyFrameCollector.stringBuffer this ++ chunk)
                (KeyFrameCollector.keyFrames this)
                (KeyFrameCollector.completionPromise this), Threw e)
    end
  else
    Some (KeyFrameCollector.mk (pre ++ post)
            (KeyFrameCollector.keyFrames this)
            (KeyFrameCollector.completionPromise this), Returned).
Proof.
  intros Es Op Hd Ok Oc. rewrite write_spec, Es.
  rewrite (@frame_exec_exact pre a d b post Op Hd Ok Oc).
  unfold KeyFrameCollector.pass_on. cbn [groups before after nth].
  change (text_eqb [d] (str "1")) with (Ascii.eqb d "1" && true).
  rewrite andb_true_r. destruct (Ascii.eqb d "1"); [|reflexivity].
  cbn [KeyFrameCollector.set_stringBuffer KeyFrameCollector.keyFrames].
  destruct (KeyFrame.new _ _); reflexivity.
Qed.

(** Every [write] adds at most one keyframe, however many blocks the
    buffer holds. *)
Lemma write_at_most_one this chunk this' o :
  KeyFrameCollector.write this chunk = Some (this', o) ->
  length (KeyFrameCollector.keyFrames this')
  <= S (length (KeyFrameCollector.keyFrames this)).
Proof.
  rewrite write_spec.
  destruct (regexp_exec _ 2 _) as [f|]; [|intros [= <- _]; simpl; lia].
  unfold KeyFrameCollector.pass_on.
  destruct (nth 2 (groups f) None) as [flag|]; [|intros [= <- _]; simpl; lia].
  destruct (text_eqb flag (str "1")); [|intros [= <- _]; simpl; lia].
  destruct (nth 1 (groups f) None) as [frameData|]; [|intros [= <- _]; simpl; lia].
  destruct (KeyFrame.new _ frameData); intros [= <- _]; simpl;
    rewrite ?length_app; simpl; lia.
Qed.

(** C1. Two complete keyframe blocks, at 0 and at 200: fed block by block,
    or one character at a time, they give two keyframes; fed as one chunk
    they give only the one at 200, the pattern having matched from the
    first opening marker to the last closing marker.  So feeding a text in
    chunks and feeding it whole do not always collect the same keyframes. *)
Theorem one_feed_two_blocks :
  let b1 := descriptor_block "1" "0.000000" "48" in
  let b2 := descriptor_block "1" "200.500000" "9000" in
  (collected (KeyFrameCollector.write KeyFrameCollector.constructor (b1 ++ b2))
   = Some [KeyFrame.mk 0 200 9000] /\
   collected (KeyFrameCollector.write_all KeyFrameCollector.constructor [b1; b2])
   = Some [KeyFrame.mk 0 0 48; KeyFrame.mk 1 200 9000] /\
   collected (KeyFrameCollector.write_all KeyFrameCollector.constructor
                (map (fun c => [c]) (b1 ++ b2)))
   = Some [KeyFrame.mk 0 0 48; KeyFrame.mk 1 200 9000]) /\
  ~ (forall chunks : list text,
       collected (KeyFrameCollector.write_all KeyFrameCollector.constructor chunks)
       = collected (KeyFrameCollector.write KeyFrameCollector.constructor
                      (concat chunks))).
Proof.
  split; [vm_compute; repeat split|].
  intros H.
  specialize (H [descriptor_block "1" "0.000000" "48";
                 descriptor_block "1" "200.500000" "9000"]).
  vm_compute in H. discriminate H.
Qed.

(** ** KeyFrame: the order of the two fields *)

(** C2, as stated, fails: the block [pkt_pos=345 pts_time=12] has both
    fields, the byte offset first, and the constructor throws on it; so it
    is not true that every block with both fields is accepted. *)
Lemma fields_in_either_order_refuted :
  (has_field (str "pts_time=") (str "pkt_pos=345 pts_time=12") /\
   has_field (str "pkt_pos=") (str "pkt_pos=345 pts_time=12") /\
   KeyFrame.new 0 (str "pkt_pos=345 pts_time=12") = Throw KeyFrame.parse_error) /\
  ~ (forall id frameData,
       has_field (str "pts_time=") frameData ->
       has_field (str "pkt_pos=") frameData ->
       exists f, KeyFrame.new id frameData = Ok f).
Proof.
  assert (H1 : has_field (str "pts_time=") (str "pkt_pos=345 pts_time=12")).
  { exists (str "pkt_pos=345 "), (str "12"), []. repeat split. discriminate. }
  assert (H2 : has_field (str "pkt_pos=") (str "pkt_pos=345 pts_time=12")).
  { exists [], (str "345"), (str " pts_time=12"). repeat split. discriminate. }
  split; [repeat split; assumption|].
  intros H. destruct (H 0 _ H1 H2) as [f Hf].
  vm_compute in Hf. discriminate.
Qed.

(** C2, amended. The constructor succeeds exactly on the blocks in which a
    [pts_time=] number is followed, somewhere later, by a [pkt_pos=]
    number; and when neither field name comes again after these two
    fields, it extracts the two numbers as [parseInt] reads them: each is
    the number nearest to the value of its run of digits, and that value
    itself when it is below 2^53. *)
Theorem KeyFrame_fields_in_order (id : nat) (frameData : text) :
  ((exists f, KeyFrame.new id frameData = Ok f) <->
   (exists a d1 b d2 c, frame_shape frameData a d1 b d2 c)) /\
  (forall a d1 b d2 c,
     frame_shape frameData a d1 b d2 c ->
     no_leading_digit b = true -> no_leading_digit c = true ->
     occurs (str "pts_time=") (b ++ str "pkt_pos=" ++ d2 ++ c) = false ->
     occurs (str "pkt_pos=") c = false ->
     KeyFrame.new id frameData
     = Ok (KeyFrame.mk id (parseInt d1) (parseInt d2)) /\
     parseInt d1 = Number_of_N (parse_digits 0 d1) /\
     parseInt d2 = Number_of_N (parse_digits 0 d2) /\
     ((parse_digits 0 d1 < 2 ^ 53)%N -> parseInt d1 = parse_digits 0 d1) /\
     ((parse_digits 0 d2 < 2 ^ 53)%N -> parseInt d2 = parse_digits 0 d2)).
Proof.
  split; [split|].
  - intros [f Hf]. apply KeyFrame_new_inv in Hf as (a & d1 & b & d2 & c & H & _).
    eauto 6.
  - intros (a & d1 & b & d2 & c & H). eapply KeyFrame_new_complete; eauto.
  - intros a d1 b d2 c (-> & H1 & H2) Hb Hc O1 O2.
    split; [now apply KeyFrame_new_exact|].
    repeat split; apply parseInt_safe.
Qed.

Lemma KeyFrame_fields_in_order_witness :
  KeyFrame.new 0 (str "key_frame=1 pts_time=12.5 pkt_pos=345 x")
  = Ok (KeyFrame.mk 0 12 345).
Proof.
  apply (proj2 (KeyFrame_fields_in_order
                  0 (str "key_frame=1 pts_time=12.5 pkt_pos=345 x"))
               (str "key_frame=1 ") (str "12") (str ".5 ") (str "345")
               (str " x")).
  - repeat split; discriminate.
  - reflexivity.
  - reflexivity.
  - reflexivity.
  - reflexivity.
Defined.

(** Past 2^53 the constructor holds the nearest number, not the value of
    the digits: on a tie the one with the even significand. *)
Lemma KeyFrame_holds_nearest_number :
  KeyFrame.new 0 (str "pts_time=9007199254740993 pkt_pos=9007199254740995")
  = Ok (KeyFrame.mk 0 9007199254740992 9007199254740996).
Proof. vm_compute. reflexivity. Qed.

(** ** The collector: blocks it cannot parse, and blocks it drops *)

(** The constructor either returns a keyframe or throws its own error. *)
Lemma KeyFrame_new_cases id s :
  (exists f, KeyFrame.new id s = Ok f) \/
  KeyFrame.new id s = Throw KeyFrame.parse_error.
Proof.
  unfold KeyFrame.new, String_match.
  destruct (regexp_exec KeyFrame.frameRegEX 2 s) as [fd|] eqn:E; [left|now right].
  apply regexp_exec_spec in E as (u & y & _ & Hm & Hg & _ & _).
  apply matcher_sound in Hm as (y' & HM & [= ->]).
  apply Matches_frameRegEX in HM as (? & d1 & ? & d2 & ? & _ & Hc).
  cbn [option_map]. rewrite Hg, Hc. simpl. eauto.
Qed.

Lemma KeyFrame_new_absent id s :
  occurs (str "pts_time=") s = false \/ occurs (str "pkt_pos=") s = false ->
  KeyFrame.new id s = Throw KeyFrame.parse_error.
Proof.
  intros H. destruct (KeyFrame_new_cases id s) as [[f Hf]|Hf]; [exfalso|exact Hf].
  apply KeyFrame_new_inv in Hf as (a & d1 & b & d2 & c & (-> & _ & _) & _).
  destruct H as [H|H].
  - now rewrite occurs_intro in H.
  - rewrite (app_assoc a), (app_assoc _ d1), (app_assoc _ b) in H.
    now rewrite occurs_intro in H.
Qed.

(** X15. When the text the pattern of the scan matches is flagged as a
    keyframe and holds no [pts_time=], or no [pkt_pos=], the constructor
    throws its error and [write] ends by throwing it: the call returns (the
    loop does not go on), the keyframes are as before and the matched text
    is still in the buffer.  (The matched text is one block when the
    buffer holds one, see [write_one_block].) *)
Theorem malformed_keyframe_block_throws
        (this : KeyFrameCollector.t) (chunk : text) (f : Found)
        (frameData : text) :
  regexp_exec KeyFrameCollector.frameRegEx 2
              (KeyFrameCollector.stringBuffer this ++ chunk) = Some f ->
  nth 2 (groups f) None = Some (str "1") ->
  nth 1 (groups f) None = Some frameData ->
  occurs (str "pts_time=") frameData = false \/
  occurs (str "pkt_pos=") frameData = false ->
  KeyFrame.new (length (KeyFrameCollector.keyFrames this)) frameData
  = Throw KeyFrame.parse_error /\
  KeyFrameCollector.write this chunk
  = Some (KeyFrameCollector.mk (KeyFrameCollector.stringBuffer this ++ chunk)
                               (KeyFrameCollector.keyFrames this)
                               (KeyFrameCollector.completionPromise this),
          Threw KeyFrame.parse_error).
Proof.
  intros E Hflag Hdata Habs.
  pose proof (KeyFrame_new_absent (length (KeyFrameCollector.keyFrames this))
                                  frameData Habs) as Hnew.
  split; [exact Hnew|].
  rewrite write_spec, E. unfold KeyFrameCollector.pass_on.
  rewrite Hflag, Hdata. cbn [KeyFrameCollector.set_stringBuffer
                               KeyFrameCollector.keyFrames].
  now rewrite Hnew.
Qed.

Lemma malformed_keyframe_block_throws_witness :
  KeyFrameCollector.write KeyFrameCollector.constructor block_without_pts_time
  = Some (KeyFrameCollector.mk block_without_pts_time [] Pending,
          Threw KeyFrame.parse_error).
Proof.
  refine (proj2 (@malformed_keyframe_block_throws
                   KeyFrameCollector.constructor block_without_pts_time
                   _ _ _ _ _ _)).
  - vm_compute. reflexivity.
  - reflexivity.
  - reflexivity.
  - left. reflexivity.
Defined.

(** X16. When the flag the pattern of the scan captures is not [1],
    [write] returns without throwing, with the matched text cut out of the
    buffer and the keyframes as before, whatever that text is: the
    constructor is not called on it.  (The matched text is one block when
    the buffer holds one, see [write_one_block].) *)
Theorem non_keyframe_block_discarded
        (this : KeyFrameCollector.t) (chunk : text) (f : Found) :
  regexp_exec KeyFrameCollector.frameRegEx 2
              (KeyFrameCollector.stringBuffer this ++ chunk) = Some f ->
  nth 2 (groups f) None <> Some (str "1") ->
  (exists block,
      nth 0 (groups f) None = Some block /\
      KeyFrameCollector.stringBuffer this ++ chunk
      = before f ++ block ++ after f) /\
  KeyFrameCollector.write this chunk
  = Some (KeyFrameCollector.mk (before f ++ after f)
                               (KeyFrameCollector.keyFrames this)
                               (KeyFrameCollector.completionPromise this),
          Returned).
Proof.
  intros E Hflag. split.
  - destruct (frame_found _ E) as (a & d & b & Es & _ & Hg).
    rewrite Hg. eexists; split; [reflexivity|].
    now rewrite Es, <- !app_assoc.
  - rewrite write_spec, E. unfold KeyFrameCollector.pass_on.
    destruct (nth 2 (groups f) None) as [flag|]; [|reflexivity].
    destruct (text_eqb flag (str "1")) eqn:Ef; [|reflexivity].
    apply text_eqb_eq in Ef. congruence.
Qed.

Lemma non_keyframe_block_discarded_witness :
  KeyFrameCollector.write KeyFrameCollector.constructor block_not_keyframe
  = Some (KeyFrameCollector.mk [LF] [] Pending, Returned).
Proof.
  refine (proj2 (@non_keyframe_block_discarded
                   KeyFrameCollector.constructor block_not_keyframe
                   (mkFound [] _ [LF]) _ _)).
  - vm_compute. reflexivity.
  - discriminate.
Defined.

(** C8. A keyframe block without its timestamp, and a complete keyframe
    block after it.  Fed alone, or block by block, the first block makes
    [write] throw the parse error and stays in the buffer.  Fed in one
    chunk with the block after it, it raises no error: the pattern matches
    from the first opening marker to the last closing marker, the
    constructor finds the two fields of the second block, and the first
    block is cut out with it.  So a block without its timestamp is not
    always signalled. *)
Theorem malformed_block_before_a_good_block :
  let bad := block_without_pts_time in
  let good := descriptor_block "1" "200.500000" "9000" in
  KeyFrameCollector.write KeyFrameCollector.constructor bad
  = Some (KeyFrameCollector.mk bad [] Pending, Threw KeyFrame.parse_error) /\
  KeyFrameCollector.write_all KeyFrameCollector.constructor [bad; good]
  = Some (KeyFrameCollector.mk bad [] Pending, Threw KeyFrame.parse_error) /\
  KeyFrameCollector.write KeyFrameCollector.constructor (bad ++ good)
  = Some (KeyFrameCollector.mk [LF] [KeyFrame.mk 0 200 9000] Pending,
          Returned).
Proof. vm_compute. repeat split. Qed.

(** C9. A block that is not a keyframe, with both fields, and after it a
    keyframe block whose fields have no number.  Fed alone, the first
    block is dropped and nothing is collected; fed block by block, the
    second block then makes [write] throw.  Fed in one chunk, the two are
    matched as one text, the flag captured is the second block's, the
    constructor is called on the whole text and makes a keyframe of the
    fields of the block that is not a keyframe.  And a block that is not a
    keyframe, before a keyframe block without its timestamp, stays in the
    buffer when the call throws. *)
Theorem non_keyframe_block_before_a_keyframe_block :
  let plain := descriptor_block "0" "5.000000" "6" in
  let flagged := block_with_unknown_fields in
  KeyFrameCollector.write KeyFrameCollector.constructor plain
  = Some (KeyFrameCollector.mk [LF] [] Pending, Returned) /\
  KeyFrameCollector.write_all KeyFrameCollector.constructor [plain; flagged]
  = Some (KeyFrameCollector.mk (LF :: flagged) [] Pending,
          Threw KeyFrame.parse_error) /\
  KeyFrameCollector.write KeyFrameCollector.constructor (plain ++ flagged)
  = Some (KeyFrameCollector.mk [LF] [KeyFrame.mk 0 5 6] Pending, Returned) /\
  KeyFrameCollector.write KeyFrameCollector.constructor
    (block_not_keyframe ++ block_without_pts_time)
  = Some (KeyFrameCollector.mk (block_not_keyframe ++ block_without_pts_time)
            [] Pending,
          Threw KeyFrame.parse_error).
Proof. vm_compute. repeat split. Qed.

(** ** The collector: [close] *)

(** Resolving a settled promise does nothing: after [abort(reason)] on a
    new collector, [close] returns and the completion value stays rejected
    with [reason]. *)
Lemma close_after_abort :
  let aborted := KeyFrameCollector.abort KeyFrameCollector.constructor
                   (Error (str "analysis failed")) in
  KeyFrameCollector.close aborted = (aborted, Returned) /\
  KeyFrameCollector.processingDone (fst (KeyFrameCollector.close aborted))
  = Rejected (Error (str "analysis failed")).
Proof. split; reflexivity. Qed.

(** C7, as stated, fails: on a collector whose completion value is
    settled, [close] does not fulfill it.  After [abort] it stays
    rejected; and after a first [close], two more blocks and a second
    [close], it still holds the empty collection of the first [close],
    not the selection from the two keyframes collected since. *)
Lemma close_on_a_settled_promise :
  let aborted := KeyFrameCollector.abort KeyFrameCollector.constructor
                   (Error (str "analysis failed")) in
  let reclosed :=
    fold_left after_call
      [Close;
       Write (descriptor_block "1" "0.000000" "48");
       Write (descriptor_block "1" "200.500000" "9000");
       Close]
      KeyFrameCollector.constructor in
  (KeyFrameCollector.processingDone (fst (KeyFrameCollector.close aborted))
   = Rejected (Error (str "analysis failed")) /\
   KeyFrameCollector.keyFrames reclosed
   = [KeyFrame.mk 0 0 48; KeyFrame.mk 1 200 9000] /\
   KeyFrameCollector.filterFrames reclosed = Ok [KeyFrame.mk 1 200 9000] /\
   KeyFrameCollector.processingDone reclosed
   = Fulfilled (KeyFrameCollection.mk [])) /\
  ~ (forall this : KeyFrameCollector.t,
       exists frames,
         KeyFrameCollector.filterFrames this = Ok frames /\
         KeyFrameCollector.processingDone (fst (KeyFrameCollector.close this))
         = Fulfilled (KeyFrameCollection.mk frames)).
Proof.
  split; [vm_compute; repeat split|].
  intros H.
  destruct (H (KeyFrameCollector.abort KeyFrameCollector.constructor
                 (Error (str "analysis failed")))) as (frames & _ & Hp).
  vm_compute in Hp. discriminate Hp.
Qed.

(** C7, amended. In every state [close] returns after resolving the
    completion promise with the collection of the keyframes [filterFrames]
    gives, a selection from the elements after the first and not the raw
    sequence, leaving buffer and keyframes as they are; a completion value
    that is still pending is thereby fulfilled with that collection, and
    one that is settled stays as it is. *)
Theorem close_fulfills_with_filtered (this : KeyFrameCollector.t) :
  exists frames,
    KeyFrameCollector.filterFrames this = Ok frames /\
    subseq frames (tl (KeyFrameCollector.keyFrames this)) /\
    KeyFrameCollector.close this
    = (KeyFrameCollector.mk
         (KeyFrameCollector.stringBuffer this)
         (KeyFrameCollector.keyFrames this)
         (Promise_resolve (KeyFrameCollector.completionPromise this)
                          (KeyFrameCollection.mk frames)),
       Returned) /\
    (KeyFrameCollector.completionPromise this = Pending ->
     KeyFrameCollector.processingDone (fst (KeyFrameCollector.close this))
     = Fulfilled (KeyFrameCollection.mk frames)) /\
    (KeyFrameCollector.completionPromise this <> Pending ->
     KeyFrameCollector.processingDone (fst (KeyFrameCollector.close this))
     = KeyFrameCollector.completionPromise this).
Proof.
  eexists. split; [apply filterFrames_keep|]. split; [|split; [|split]].
  - destruct (KeyFrameCollector.keyFrames this) as [|first others];
      [constructor|].
    cbn [map tl]. rewrite filter_mask_first. cbn [keep]. apply keep_subseq.
  - unfold KeyFrameCollector.close. now rewrite filterFrames_keep.
  - unfold KeyFrameCollector.close. rewrite filterFrames_keep.
    intros Hp. cbn [fst KeyFrameCollector.processingDone
                      KeyFrameCollector.completionPromise].
    now rewrite Hp.
  - unfold KeyFrameCollector.close. rewrite filterFrames_keep.
    intros Hp. cbn [fst KeyFrameCollector.processingDone
                      KeyFrameCollector.completionPromise].
    destruct (KeyFrameCollector.completionPromise this);
      [congruence | reflexivity | reflexivity].
Qed.

Lemma close_fulfills_with_filtered_witness :
  KeyFrameCollector.processingDone
    (fst (KeyFrameCollector.close
            (KeyFrameCollector.mk []
               [KeyFrame.mk 0 0 48; KeyFrame.mk 1 200 9000] Pending)))
  = Fulfilled (KeyFrameCollection.mk [KeyFrame.mk 1 200 9000]).
Proof.
  destruct (close_fulfills_with_filtered
              (KeyFrameCollector.mk [] [KeyFrame.mk 0 0 48; KeyFrame.mk 1 200 9000]
                                    Pending))
    as (frames & Hf & _ & _ & Hp & _).
  cbv in Hf. injection Hf as <-. exact (Hp eq_refl).
Defined.

(* ================================================================== *)
(** * Further properties of the collector, the selector and the renderer *)

(** ** [write]: what a call can and cannot do *)

(** The pattern matches only a text with an opening marker, a
    [key_frame=] and a closing marker. *)
Lemma frame_found_markers s f :
  regexp_exec KeyFrameCollector.frameRegEx 2 s = Some f ->
  occurs (str "[FRAME]") s = true /\
  occurs (str "key_frame=") s = true /\
  occurs (str "[/FRAME]") s = true.
Proof.
  intros H. destruct (frame_found _ H) as (a & d & b & -> & _ & _).
  clear H. repeat split.
  - apply occurs_intro.
  - replace (before f ++ str "[FRAME]" ++ block_text a d b
             ++ str "[/FRAME]" ++ after f)
      with ((before f ++ str "[FRAME]" ++ a) ++ str "key_frame="
            ++ (d :: b ++ str "[/FRAME]" ++ after f))
      by (unfold block_text; now rewrite <- !app_assoc).
    apply occurs_intro.
  - replace (before f ++ str "[FRAME]" ++ block_text a d b
             ++ str "[/FRAME]" ++ after f)
      with ((before f ++ str "[FRAME]" ++ block_text a d b)
            ++ str "[/FRAME]" ++ after f)
      by now rewrite <- !app_assoc.
    apply occurs_intro.
Qed.

(** X1. Every call of [write] ends; it leaves the completion value as it
    is, keeps the keyframes already collected in place, and appends at most
    one keyframe, none when it throws. *)
Theorem write_appends_at_most_one (this : KeyFrameCollector.t) (chunk : text) :
  exists this' o added,
    KeyFrameCollector.write this chunk = Some (this', o) /\
    KeyFrameCollector.completionPromise this'
    = KeyFrameCollector.completionPromise this /\
    KeyFrameCollector.keyFrames this'
    = KeyFrameCollector.keyFrames this ++ added /\
    length added <= 1 /\
    match o with Returned => True | Threw _ => added = [] end.
Proof.
  rewrite write_spec.
  destruct (regexp_exec _ 2 _) as [f|].
  2:{ eexists _, _, []. split; [reflexivity|]. simpl.
      rewrite app_nil_r. auto. }
  unfold KeyFrameCollector.pass_on.
  destruct (nth 2 (groups f) None) as [flag|].
  2:{ eexists _, _, []. split; [reflexivity|]. simpl.
      rewrite app_nil_r. auto. }
  destruct (text_eqb flag (str "1")).
  2:{ eexists _, _, []. split; [reflexivity|]. simpl.
      rewrite app_nil_r. auto. }
  destruct (nth 1 (groups f) None) as [frameData|].
  2:{ eexists _, _, []. split; [reflexivity|]. simpl.
      rewrite app_nil_r. auto. }
  destruct (KeyFrame.new _ frameData) as [kf|e].
  - eexists _, _, [kf]. split; [reflexivity|]. simpl. auto.
  - eexists _, _, []. split; [reflexivity|]. simpl.
    rewrite app_nil_r. auto.
Qed.

(** X2. After a call of [write] that returns, the buffer holds no text the
    pattern matches: nothing is left for the loop to find. *)
Theorem write_leaves_no_block (this this' : KeyFrameCollector.t) (chunk : text) :
  KeyFrameCollector.write this chunk = Some (this', Returned) ->
  String_match (KeyFrameCollector.stringBuffer this')
               KeyFrameCollector.frameRegEx 2 = None.
Proof.
  rewrite write_spec. unfold String_match.
  destruct (regexp_exec _ 2 (_ ++ chunk)) as [f|] eqn:E.
  - destruct (KeyFrameCollector.pass_on _ (groups f)) as [t|e];
      [|discriminate].
    intros [= <-]. cbn [KeyFrameCollector.set_stringBuffer
                          KeyFrameCollector.stringBuffer].
    now rewrite (frame_no_second _ E).
  - intros [= <-]. cbn [KeyFrameCollector.set_stringBuffer
                          KeyFrameCollector.stringBuffer].
    now rewrite E.
Qed.

Lemma write_leaves_no_block_witness :
  String_match [LF] KeyFrameCollector.frameRegEx 2 = None.
Proof.
  apply (@write_leaves_no_block
           KeyFrameCollector.constructor
           (KeyFrameCollector.mk [LF] [] Pending) block_not_keyframe).
  vm_compute. reflexivity.
Defined.

(** X3. While the buffer, with the chunk, lacks an opening marker, a
    [key_frame=] or a closing marker, [write] only appends the chunk to the
    buffer and returns. *)
Theorem write_waits_for_a_complete_block
        (this : KeyFrameCollector.t) (chunk : text) :
  occurs (str "[FRAME]") (KeyFrameCollector.stringBuffer this ++ chunk) = false \/
  occurs (str "key_frame=") (KeyFrameCollector.stringBuffer this ++ chunk) = false \/
  occurs (str "[/FRAME]") (KeyFrameCollector.stringBuffer this ++ chunk) = false ->
  KeyFrameCollector.write this chunk
  = Some (KeyFrameCollector.mk (KeyFrameCollector.stringBuffer this ++ chunk)
                               (KeyFrameCollector.keyFrames this)
                               (KeyFrameCollector.completionPromise this),
          Returned).
Proof.
  intros H. rewrite write_spec.
  destruct (regexp_exec _ 2 _) as [f|] eqn:E; [exfalso|reflexivity].
  destruct (frame_found_markers _ E) as (H1 & H2 & H3).
  destruct H as [H|[H|H]]; congruence.
Qed.

Lemma write_waits_for_a_complete_block_witness :
  KeyFrameCollector.write
    (KeyFrameCollector.mk (str "[FRAME] key_frame=1 ") [] Pending)
    (str "pts_time=3 pkt_pos=4 [/FRA")
  = Some (KeyFrameCollector.mk
            (str "[FRAME] key_frame=1 " ++ str "pts_time=3 pkt_pos=4 [/FRA")
            [] Pending,
          Returned).
Proof.
  apply (write_waits_for_a_complete_block
           (KeyFrameCollector.mk (str "[FRAME] key_frame=1 ") [] Pending)
           (str "pts_time=3 pkt_pos=4 [/FRA")).
  right. right. reflexivity.
Defined.

(** X4. The only error [write] throws is the constructor's, and only when
    the scan has found a block flagged [1] whose text has no [pts_time=]
    number followed by a [pkt_pos=] number; the collector is then left with
    the chunk appended to its buffer and nothing else changed. *)
Theorem write_throws_only_the_parse_error
        (this this' : KeyFrameCollector.t) (chunk : text) (e : JsError) :
  KeyFrameCollector.write this chunk = Some (this', Threw e) ->
  e = KeyFrame.parse_error /\
  this' = KeyFrameCollector.mk (KeyFrameCollector.stringBuffer this ++ chunk)
                               (KeyFrameCollector.keyFrames this)
                               (KeyFrameCollector.completionPromise this) /\
  exists f frameData,
    regexp_exec KeyFrameCollector.frameRegEx 2
                (KeyFrameCollector.stringBuffer this ++ chunk) = Some f /\
    nth 2 (groups f) None = Some (str "1") /\
    nth 1 (groups f) None = Some frameData /\
    ~ (exists a d1 b d2 c, frame_shape frameData a d1 b d2 c).
Proof.
  rewrite write_spec.
  destruct (regexp_exec _ 2 _) as [f|] eqn:E; [|discriminate].
  destruct (frame_found _ E) as (a & d & b & _ & _ & Hg).
  unfold KeyFrameCollector.pass_on. rewrite Hg. cbn [nth].
  destruct (text_eqb [d] (str "1")) eqn:Ed; [|discriminate].
  apply text_eqb_eq in Ed.
  destruct (KeyFrame_new_cases
              (length (KeyFrameCollector.keyFrames
                         (KeyFrameCollector.set_stringBuffer this
                            (KeyFrameCollector.stringBuffer this ++ chunk))))
              (block_text a d b)) as [[kf Hk]|Hk]; rewrite Hk; [discriminate|].
  intros [= <- <-]. repeat split.
  exists f, (block_text a d b). rewrite Hg. cbn [nth]. rewrite Ed.
  repeat split.
  intros (a' & d1 & b' & d2 & c & Hs).
  destruct (KeyFrame_new_complete
              (length (KeyFrameCollector.keyFrames
                         (KeyFrameCollector.set_stringBuffer this
                            (KeyFrameCollector.stringBuffer this ++ chunk))))
              Hs) as [kf Hk'].
  congruence.
Qed.

Lemma write_throws_only_the_parse_error_witness :
  KeyFrame.parse_error = KeyFrame.parse_error /\
  KeyFrameCollector.mk block_without_pts_time [] Pending
  = KeyFrameCollector.mk ([] ++ block_without_pts_time) [] Pending /\
  exists f frameData,
    regexp_exec KeyFrameCollector.frameRegEx 2 ([] ++ block_without_pts_time)
    = Some f /\
    nth 2 (groups f) None = Some (str "1") /\
    nth 1 (groups f) None = Some frameData /\
    ~ (exists a d1 b d2 c, frame_shape frameData a d1 b d2 c).
Proof.
  apply (@write_throws_only_the_parse_error
           KeyFrameCollector.constructor
           (KeyFrameCollector.mk block_without_pts_time [] Pending)
           block_without_pts_time KeyFrame.parse_error).
  vm_compute. reflexivity.
Defined.

(** ** [write]: a text with one block, however it is cut into chunks *)

Lemma occurs_prefix (l x y : text) :
  occurs l x = true -> occurs l (x ++ y) = true.
Proof.
  intros H. apply occurs_inv in H as (a & t & ->).
  rewrite <- !app_assoc. apply occurs_intro.
Qed.

Lemma occurs_prefix_false (l x y : text) :
  occurs l (x ++ y) = false -> occurs l x = false.
Proof.
  intros H. destruct (occurs l x) eqn:E; [|reflexivity].
  now rewrite (occurs_prefix l x y E) in H.
Qed.

(** A text in which the pattern finds nothing has no beginning in which
    it finds something. *)
Lemma frame_no_match_prefix x y :
  regexp_exec KeyFrameCollector.frameRegEx 2 (x ++ y) = None ->
  regexp_exec KeyFrameCollector.frameRegEx 2 x = None.
Proof.
  intros H. destruct (regexp_exec KeyFrameCollector.frameRegEx 2 x)
    as [f|] eqn:E; [exfalso | reflexivity].
  destruct (frame_found _ E) as (a & d & b & Ex & Hd & _).
  destruct (matcher_complete
              (@Matches_frameRegEx_intro a d b (after f ++ y) [None; None; None] Hd)
              Some eq_refl) as [z Hz].
  destruct (regexp_exec_some KeyFrameCollector.frameRegEx 2 (before f) _ Hz)
    as [f' Hf'].
  rewrite Ex, <- !app_assoc in H. congruence.
Qed.

Lemma set_stringBuffer_same this :
  KeyFrameCollector.set_stringBuffer this (KeyFrameCollector.stringBuffer this)
  = this.
Proof. now destruct this. Qed.

(** Chunks that complete no block pile up in the buffer. *)
Lemma write_all_accumulates chunks : forall this,
  regexp_exec KeyFrameCollector.frameRegEx 2
              (KeyFrameCollector.stringBuffer this ++ concat chunks) = None ->
  KeyFrameCollector.write_all this chunks
  = Some (KeyFrameCollector.set_stringBuffer this
            (KeyFrameCollector.stringBuffer this ++ concat chunks),
          Returned).
Proof.
  induction chunks as [|c cs IH]; intros this H; cbn [concat] in *.
  - cbn [KeyFrameCollector.write_all].
    now rewrite app_nil_r, set_stringBuffer_same.
  - cbn [KeyFrameCollector.write_all]. rewrite write_spec.
    rewrite app_assoc in H.
    rewrite (frame_no_match_prefix _ _ H).
    rewrite IH; cbn [KeyFrameCollector.set_stringBuffer
                       KeyFrameCollector.stringBuffer
                       KeyFrameCollector.keyFrames
                       KeyFrameCollector.completionPromise]; [|exact H].
    now rewrite <- app_assoc.
Qed.

(** [write] sees the buffer and the chunk only as one text. *)
Lemma write_regroup this c c' :
  KeyFrameCollector.write
    (KeyFrameCollector.set_stringBuffer this
       (KeyFrameCollector.stringBuffer this ++ c)) c'
  = KeyFrameCollector.write this (c ++ c').
Proof.
  rewrite !write_spec.
  cbn [KeyFrameCollector.set_stringBuffer KeyFrameCollector.stringBuffer
       KeyFrameCollector.keyFrames KeyFrameCollector.completionPromise].
  now rewrite <- app_assoc.
Qed.

Lemma split_after_marker (l x y u z : text) :
  x ++ y = u ++ z -> occurs l x = true -> occurs l u = false ->
  exists z1, x = u ++ z1 /\ z = z1 ++ y /\ z1 <> [].
Proof.
  intros E Hx Hu. apply app_eq_app_split in E as [w [[-> ->]|[-> ->]]].
  - exists w. repeat split. intros ->. rewrite app_nil_r in Hx. congruence.
  - rewrite (occurs_prefix l x w Hx) in Hu. discriminate.
Qed.

(** X5. A text with one complete block (no opening marker before it, one
    closing marker, its [key_frame=] the last one), fed to a collector
    whose buffer holds no block: however the text is cut into chunks, the
    calls end as one call with the whole text does, with the same
    keyframes, and when they return, with the same buffer. *)
Theorem single_block_chunk_independence
        (chunks : list text) (pre a : text) (d : ascii) (b post : text) :
  forall this : KeyFrameCollector.t,
  String_match (KeyFrameCollector.stringBuffer this)
               KeyFrameCollector.frameRegEx 2 = None ->
  KeyFrameCollector.stringBuffer this ++ concat chunks
  = pre ++ str "[FRAME]" ++ block_text a d b ++ str "[/FRAME]" ++ post ->
  occurs (str "[FRAME]") (pre ++ str "[FRAME") = false ->
  is_digit d = true ->
  occurs (str "key_frame=") (b ++ str "[/FRAME]" ++ post) = false ->
  occurs (str "[/FRAME]") post = false ->
  occurs (str "[/FRAME]")
         (pre ++ str "[FRAME]" ++ block_text a d b ++ str "[/FRAME") = false ->
  exists t1 t2 o,
    KeyFrameCollector.write_all this chunks = Some (t1, o) /\
    KeyFrameCollector.write this (concat chunks) = Some (t2, o) /\
    KeyFrameCollector.keyFrames t1 = KeyFrameCollector.keyFrames t2 /\
    (o = Returned -> t1 = t2).
Proof.
  intros this Hnone Es Op Hd Ok Oc Ou.
  assert (Hwhole : regexp_exec KeyFrameCollector.frameRegEx 2
                     (pre ++ post) = None).
  { apply (frame_no_second
             (pre ++ str "[FRAME]" ++ block_text a d b ++ str "[/FRAME]" ++ post)
             (@frame_exec_exact pre a d b post Op Hd Ok Oc)). }
  revert this Hnone Es.
  induction chunks as [|c cs IH]; intros this Hnone Es; cbn [concat] in *.
  - exfalso. rewrite app_nil_r in Es. unfold String_match in Hnone.
    rewrite Es, (@frame_exec_exact pre a d b post Op Hd Ok Oc) in Hnone.
    discriminate.
  - cbn [KeyFrameCollector.write_all].
    destruct (regexp_exec KeyFrameCollector.frameRegEx 2
                (KeyFrameCollector.stringBuffer this ++ c)) as [f|] eqn:E.
    + (* this chunk completes the block *)
      destruct (frame_found_markers _ E) as (_ & _ & Hc).
      assert (Es' : (KeyFrameCollector.stringBuffer this ++ c) ++ concat cs
                    = (pre ++ str "[FRAME]" ++ block_text a d b ++ str "[/FRAME")
                      ++ "]"%char :: post).
      { rewrite <- app_assoc, Es.
        change (str "[/FRAME]") with (str "[/FRAME" ++ ["]"%char]).
        now rewrite <- !app_assoc. }
      destruct (split_after_marker _ _ _ _ _ Es' Hc Ou) as (z1 & Ex & Ez & Hz).
      destruct z1 as [|z0 post1]; [congruence|].
      injection Ez as <- ->.
      assert (Ex1 : KeyFrameCollector.stringBuffer this ++ c
                    = pre ++ str "[FRAME]" ++ block_text a d b
                      ++ str "[/FRAME]" ++ post1).
      { rewrite Ex. change (str "[/FRAME]") with (str "[/FRAME" ++ ["]"%char]).
        now rewrite <- !app_assoc. }
      assert (Ok1 : occurs (str "key_frame=") (b ++ str "[/FRAME]" ++ post1)
                    = false).
      { apply (occurs_prefix_false _ _ (concat cs)).
        now rewrite <- !app_assoc. }
      assert (Oc1 : occurs (str "[/FRAME]") post1 = false)
        by now apply (occurs_prefix_false _ _ (concat cs)).
      rewrite (@write_one_block this c pre a d b post1 Ex1 Op Hd Ok1 Oc1).
      rewrite (@write_one_block this (c ++ concat cs) pre a d b
                 (post1 ++ concat cs) Es Op Hd Ok Oc).
      destruct (Ascii.eqb d "1").
      * destruct (KeyFrame.new _ _) as [kf|e].
        -- rewrite write_all_accumulates;
             cbn [KeyFrameCollector.set_stringBuffer
                    KeyFrameCollector.stringBuffer
                    KeyFrameCollector.keyFrames
                    KeyFrameCollector.completionPromise];
             rewrite <- app_assoc; [|exact Hwhole].
           eexists _, _, _. repeat split; reflexivity.
        -- eexists _, _, _. repeat split; try reflexivity. discriminate.
      * rewrite write_all_accumulates;
          cbn [KeyFrameCollector.set_stringBuffer
                 KeyFrameCollector.stringBuffer
                 KeyFrameCollector.keyFrames
                 KeyFrameCollector.completionPromise];
          rewrite <- app_assoc; [|exact Hwhole].
        eexists _, _, _. repeat split; reflexivity.
    + (* the block is not complete yet: the chunk is kept *)
      rewrite write_spec, E.
      destruct (IH (KeyFrameCollector.set_stringBuffer this
                      (KeyFrameCollector.stringBuffer this ++ c)))
        as (t1 & t2 & o & H1 & H2 & Hk & Ht).
      * cbn [KeyFrameCollector.set_stringBuffer KeyFrameCollector.stringBuffer].
        unfold String_match. now rewrite E.
      * cbn [KeyFrameCollector.set_stringBuffer KeyFrameCollector.stringBuffer].
        now rewrite <- app_assoc.
      * rewrite write_regroup in H2. eauto 8.
Qed.

Lemma single_block_chunk_independence_witness :
  let this := KeyFrameCollector.constructor in
  let chunks := [str "[FRAME] key_frame=1 pts_ti";
                 str "me=12 pkt_pos=34 [/FR"; str "AME] rest"] in
  exists t1 t2 o,
    KeyFrameCollector.write_all this chunks = Some (t1, o) /\
    KeyFrameCollector.write this (concat chunks) = Some (t2, o) /\
    KeyFrameCollector.keyFrames t1 = KeyFrameCollector.keyFrames t2 /\
    (o = Returned -> t1 = t2).
Proof.
  intros this chunks.
  apply (@single_block_chunk_independence
           chunks [] (str " ") "1"%char (str " pts_time=12 pkt_pos=34 ")
           (str " rest") this); reflexivity.
Defined.

(** ** [write]: one block per chunk *)

Lemma decimal_number n : number_text (decimal n).
Proof.
  split; [|apply decimal_digits].
  unfold decimal. cbn [digits_of].
  destruct (n <? 10)%N; [discriminate|].
  rewrite digits_of_le. intros H. apply app_eq_nil in H as [_ H]. discriminate.
Qed.

(** The digits of an integer are read as the number that stands for it. *)
Lemma parseInt_decimal n : parseInt (decimal n) = Number_of_N n.
Proof.
  unfold parseInt. rewrite <- (app_nil_r (decimal n)).
  now rewrite parse_decimal.
Qed.

Lemma digits_skipped_any l0 l d :
  is_digit l0 = false -> forallb is_digit d = true ->
  skipped (l0 :: l) d = true.
Proof.
  intros H0. induction d as [|c d IH]; cbn [forallb skipped clash];
    [reflexivity|].
  intros H. apply andb_true_iff in H as [Hc Hd]. rewrite (IH Hd).
  destruct (Ascii.eqb l0 c) eqn:E; [|reflexivity].
  apply Ascii.eqb_eq in E. congruence.
Qed.

Lemma line_feeds_skipped l k :
  skipped ("["%char :: l) (repeat LF k) = true.
Proof. induction k as [|k IH]; cbn [repeat skipped clash]; auto. Qed.

(** What the search finds in a printed block that comes after [k] line
    feeds, and what the constructor makes of it. *)
Lemma frame_block_found it k id :
  frame_desc_ok it ->
  exists a b,
    repeat LF k ++ frame_block it
    = repeat LF k ++ str "[FRAME]" ++ block_text a (fd_flag it) b
      ++ str "[/FRAME]" ++ [LF] /\
    occurs (str "[FRAME]") (repeat LF k ++ str "[FRAME") = false /\
    occurs (str "key_frame=") (b ++ str "[/FRAME]" ++ [LF]) = false /\
    KeyFrame.new id (block_text a (fd_flag it) b)
    = Ok (KeyFrame.mk id (Number_of_N (fd_pts it)) (Number_of_N (fd_pkt it))).
Proof.
  intros [Hf Hfrac].
  exists [LF],
    (LF :: str "pts_time=" ++ decimal (fd_pts it) ++ str "."
        ++ fd_frac it ++ LF :: str "pkt_pos=" ++ decimal (fd_pkt it)
        ++ [LF]).
  split; [|split; [|split]].
  - unfold frame_block, unlines, block_text. cbn [flat_map].
    repeat first [rewrite <- !app_assoc | progress cbn [app]]. reflexivity.
  - apply occurs_skip; [apply line_feeds_skipped | reflexivity].
  - change (LF :: str "pts_time=" ++ decimal (fd_pts it) ++ str "."
               ++ fd_frac it ++ LF :: str "pkt_pos="
               ++ decimal (fd_pkt it) ++ [LF])
      with ((LF :: str "pts_time=") ++ decimal (fd_pts it) ++ str "."
               ++ fd_frac it ++ (LF :: str "pkt_pos=")
               ++ decimal (fd_pkt it) ++ [LF]).
    rewrite <- !app_assoc.
    apply (occurs_skip _ (LF :: str "pts_time=")); [reflexivity|].
    apply occurs_skip;
      [apply digits_skipped_any; [reflexivity|apply decimal_digits]|].
    apply (occurs_skip _ (str ".")); [reflexivity|].
    apply occurs_skip; [now apply digits_skipped_any|].
    apply (occurs_skip _ (LF :: str "pkt_pos=")); [reflexivity|].
    apply occurs_skip;
      [apply digits_skipped_any; [reflexivity|apply decimal_digits]|].
    reflexivity.
  - unfold block_text.
    change ([LF] ++ str "key_frame=" ++ fd_flag it
             :: LF :: str "pts_time=" ++ decimal (fd_pts it) ++ str "."
                ++ fd_frac it ++ LF :: str "pkt_pos="
                ++ decimal (fd_pkt it) ++ [LF])
      with ((LF :: str "key_frame=" ++ [fd_flag it; LF])
            ++ str "pts_time=" ++ decimal (fd_pts it)
            ++ str "." ++ fd_frac it ++ [LF]
            ++ str "pkt_pos=" ++ decimal (fd_pkt it) ++ [LF]).
    replace (str "." ++ fd_frac it ++ [LF]
             ++ str "pkt_pos=" ++ decimal (fd_pkt it) ++ [LF])
      with ((str "." ++ fd_frac it ++ [LF])
            ++ str "pkt_pos=" ++ decimal (fd_pkt it) ++ [LF])
      by (now rewrite <- !app_assoc).
    rewrite KeyFrame_new_exact.
    + now rewrite !parseInt_decimal.
    + apply decimal_number.
    + apply decimal_number.
    + reflexivity.
    + reflexivity.
    + rewrite <- !app_assoc.
      apply (occurs_skip _ (str ".")); [reflexivity|].
      apply occurs_skip; [now apply digits_skipped_any|].
      apply (occurs_skip _ (LF :: str "pkt_pos=")); [reflexivity|].
      apply occurs_skip;
        [apply digits_skipped_any; [reflexivity|apply decimal_digits]|].
      reflexivity.
    + reflexivity.
Qed.

(** X6. Printed blocks fed one per chunk: every call returns, each block
    flagged [1] gives a keyframe with the numbers that stand for the whole
    part of its timestamp and for its byte offset (these values themselves
    below 2^53, see [Number_of_N_safe]), in the order fed, the other blocks
    give none, and the line feed after each block stays in the buffer. *)
Theorem blocks_one_per_chunk (items : list frame_desc) :
  forall (this : KeyFrameCollector.t) (k : nat),
  KeyFrameCollector.stringBuffer this = repeat LF k ->
  Forall frame_desc_ok items ->
  KeyFrameCollector.write_all this (map frame_block items)
  = Some (KeyFrameCollector.mk
            (repeat LF (k + length items))
            (KeyFrameCollector.keyFrames this
             ++ keyframes_of (length (KeyFrameCollector.keyFrames this)) items)
            (KeyFrameCollector.completionPromise this),
          Returned).
Proof.
  induction items as [|it items IH]; intros this k Hb Hok.
  - cbn [map KeyFrameCollector.write_all keyframes_of length].
    rewrite Nat.add_0_r, app_nil_r, <- Hb. now destruct this.
  - inversion Hok as [|? ? Hit Hrest]; subst.
    cbn [map KeyFrameCollector.write_all].
    destruct (frame_block_found k (length (KeyFrameCollector.keyFrames this)) Hit)
      as (a & b & Eb & Op & Ok & Hnew).
    rewrite <- Hb in Eb at 1.
    rewrite (@write_one_block this (frame_block it) (repeat LF k) a (fd_flag it)
               b [LF] Eb Op (proj1 Hit) Ok eq_refl).
    rewrite Hnew. cbn [keyframes_of length].
    assert (El : repeat LF k ++ [LF] = repeat LF (S k))
      by (symmetry; apply repeat_cons).
    rewrite El, Nat.add_succ_r.
    destruct (Ascii.eqb (fd_flag it) "1").
    + rewrite (IH _ (S k)); cbn [KeyFrameCollector.stringBuffer
                                   KeyFrameCollector.keyFrames
                                   KeyFrameCollector.completionPromise];
        [|reflexivity|exact Hrest].
      rewrite length_app, <- app_assoc. cbn [length app].
      now rewrite Nat.add_1_r.
    + rewrite (IH _ (S k)); cbn [KeyFrameCollector.stringBuffer
                                   KeyFrameCollector.keyFrames
                                   KeyFrameCollector.completionPromise];
        [reflexivity|reflexivity|exact Hrest].
Qed.

Lemma blocks_one_per_chunk_witness :
  KeyFrameCollector.write_all KeyFrameCollector.constructor
    (map frame_block [mkDesc "1" 0 (str "000000") 48;
                      mkDesc "0" 100 (str "250000") 4000;
                      mkDesc "1" 200 (str "500000") 9000])
  = Some (KeyFrameCollector.mk [LF; LF; LF]
            [KeyFrame.mk 0 0 48; KeyFrame.mk 1 200 9000] Pending,
          Returned).
Proof.
  apply (@blocks_one_per_chunk
           [mkDesc "1" 0 (str "000000") 48;
            mkDesc "0" 100 (str "250000") 4000;
            mkDesc "1" 200 (str "500000") 9000]
           KeyFrameCollector.constructor 0).
  - reflexivity.
  - repeat constructor.
Defined.

(** ** The selector: when it selects nothing, and how far apart it selects *)

Lemma select_none others : forall last,
  keep (select_mask last (map KeyFrame.pts_time others)) others = [] <->
  Forall (fun f => (timestamp f - Z.of_N last <= 180)%Z) others.
Proof.
  induction others as [|f others IH]; intros last; cbn [map select_mask].
  - split; constructor.
  - destruct (180 <? _)%Z eqn:E; cbn [keep].
    + apply Z.ltb_lt in E. split; [discriminate|].
      intros H. inversion H; subst. unfold timestamp in *. lia.
    + apply Z.ltb_ge in E. rewrite IH. split.
      * intros H. constructor; [exact E | exact H].
      * intros H. now inversion H.
Qed.

(** X7. The selector returns no boundary exactly when no keyframe comes
    more than 180 after the first one. *)
Theorem no_boundary_iff_all_within_threshold
        (buffer : text) (first : KeyFrame.t) (others : list KeyFrame.t)
        (promise : Promise KeyFrameCollection.t) :
  KeyFrameCollector.filterFrames
    (KeyFrameCollector.mk buffer (first :: others) promise) = Ok [] <->
  Forall (fun f => (timestamp f - timestamp first <= 180)%Z) others.
Proof.
  rewrite filterFrames_keep. cbn [KeyFrameCollector.keyFrames map].
  rewrite filter_mask_first. cbn [keep].
  rewrite <- (select_none others (KeyFrame.pts_time first)).
  split; [now intros [= H] | now intros ->].
Qed.

Lemma sorted_spacing out : forall base,
  Sorted gap_after out -> HdRel gap_after base out ->
  forall i g, nth_error out i = Some g ->
  (timestamp base + 181 * Z.of_nat (S i) <= timestamp g)%Z.
Proof.
  induction out as [|g0 out IH]; intros base Hs Hh i g Hi.
  - now destruct i.
  - apply HdRel_inv in Hh. apply Sorted_inv in Hs as [Hs Hh'].
    unfold gap_after in Hh. destruct i as [|i]; cbn [nth_error] in Hi.
    + injection Hi as <-. lia.
    + specialize (IH g0 Hs Hh' i g Hi). lia.
Qed.

(** X8. The boundary at position i (from 0) comes at least 181 (i + 1)
    after the first keyframe; so keyframes that all lie between the first
    one and [T] give at most (T - first) / 181 boundaries. *)
Theorem boundaries_spacing
        (buffer : text) (first : KeyFrame.t) (others : list KeyFrame.t)
        (promise : Promise KeyFrameCollection.t) :
  exists boundaries,
    KeyFrameCollector.filterFrames
      (KeyFrameCollector.mk buffer (first :: others) promise) = Ok boundaries /\
    (forall i g, nth_error boundaries i = Some g ->
       (timestamp first + 181 * Z.of_nat (S i) <= timestamp g)%Z) /\
    (forall T, (timestamp first <= T)%Z ->
       Forall (fun f => (timestamp f <= T)%Z) others ->
       (181 * Z.of_nat (length boundaries) <= T - timestamp first)%Z).
Proof.
  rewrite filterFrames_keep. cbn [KeyFrameCollector.keyFrames map].
  rewrite filter_mask_first. cbn [keep].
  eexists; split; [reflexivity|].
  destruct (select_sorted others first) as [Hs Hh]. cbv zeta in Hs, Hh.
  set (out := keep _ others) in *.
  assert (Hsp := sorted_spacing Hs Hh).
  split; [exact Hsp|].
  intros T HT Hall.
  destruct (length out) as [|n] eqn:El; [lia|].
  destruct (nth_error out n) as [g|] eqn:En.
  - specialize (Hsp n g En).
    assert (Hin : In g others).
    { apply (@subseq_In _ out others g); [apply keep_subseq|].
      eapply nth_error_In; eauto. }
    rewrite Forall_forall in Hall. specialize (Hall g Hin). lia.
  - apply nth_error_None in En. lia.
Qed.

(** ** From the collector to the document *)

Lemma reparse_generate l :
  written_exactly l ->
  reparse_start_end
    (KeyFrameCollection.generateChapterMetadata (KeyFrameCollection.mk l))
  = combine (0%N :: map KeyFrame.pts_time l) (map KeyFrame.pts_time l).
Proof.
  intros Hl. unfold reparse_start_end. rewrite generate_records.
  rewrite !field_values_header by reflexivity.
  rewrite field_values_records_START, field_values_records_END
    by (assumption || reflexivity).
  apply combine_removelast.
Qed.

Lemma Forall_keep {A : Type} (P : A -> Prop) mask : forall l,
  Forall P l -> Forall P (keep mask l).
Proof.
  induction mask as [|[] m IH]; intros [|x l] H; cbn [keep];
    try constructor; inversion H; subst; auto.
Qed.

Lemma sorted_pairs out : forall base : N,
  Sorted gap_after out ->
  Forall (fun g => (Z.of_N base + 180 < timestamp g)%Z) (firstn 1 out) ->
  Forall (fun p => (Z.of_N (fst p) + 180 < Z.of_N (snd p))%Z)
         (combine (base :: map KeyFrame.pts_time out)
                  (map KeyFrame.pts_time out)).
Proof.
  induction out as [|g out IH]; intros base Hs Hb; cbn [map combine].
  - constructor.
  - apply Sorted_inv in Hs as [Hs Hh]. inversion Hb; subst.
    constructor; [assumption|].
    apply IH; [exact Hs|].
    destruct Hh as [|g' out' Hg]; cbn [firstn]; constructor; [|constructor].
    unfold gap_after, timestamp in *. lia.
Qed.

(** X9. On a collector whose completion value is pending and whose
    timestamps are below 2^53, [close] fulfills it with a collection whose
    document, read back, pairs 0 and the kept timestamps with the kept
    timestamps, where the kept timestamps are those at the positions the
    selector keeps; every chapter of that document ends more than 180
    after it starts. *)
Theorem close_then_render (this : KeyFrameCollector.t) :
  KeyFrameCollector.completionPromise this = Pending ->
  written_exactly (KeyFrameCollector.keyFrames this) ->
  let times := map KeyFrame.pts_time (KeyFrameCollector.keyFrames this) in
  let kept := keep (filter_mask times) times in
  exists collection,
    KeyFrameCollector.processingDone (fst (KeyFrameCollector.close this))
    = Fulfilled collection /\
    reparse_start_end (KeyFrameCollection.generateChapterMetadata collection)
    = combine (0%N :: kept) kept /\
    Forall (fun p => (Z.of_N (fst p) + 180 < Z.of_N (snd p))%Z)
           (reparse_start_end
              (KeyFrameCollection.generateChapterMetadata collection)).
Proof.
  intros Hp Hw times kept. subst kept times. unfold KeyFrameCollector.close.
  rewrite filterFrames_keep.
  cbn [fst KeyFrameCollector.processingDone KeyFrameCollector.completionPromise].
  rewrite Hp. cbn [Promise_resolve].
  eexists; split; [reflexivity|].
  rewrite reparse_generate by (apply Forall_keep; exact Hw).
  split; [now rewrite map_keep|].
  apply sorted_pairs; [apply filter_keep_sorted|].
  destruct (KeyFrameCollector.keyFrames this) as [|first others];
    [constructor|].
  cbn [map]. rewrite filter_mask_first. cbn [keep].
  destruct (select_sorted others first) as [_ Hh]. cbv zeta in Hh.
  destruct Hh as [|g out Hg]; cbn [firstn]; constructor; [|constructor].
  unfold gap_after, timestamp in *. lia.
Qed.

Lemma close_then_render_witness :
  exists collection,
    KeyFrameCollector.processingDone
      (fst (KeyFrameCollector.close
              (KeyFrameCollector.mk []
                 [KeyFrame.mk 0 0 48; KeyFrame.mk 1 200 9000] Pending)))
    = Fulfilled collection /\
    reparse_start_end (KeyFrameCollection.generateChapterMetadata collection)
    = [(0, 200)]%N /\
    Forall (fun p => (Z.of_N (fst p) + 180 < Z.of_N (snd p))%Z)
           (reparse_start_end
              (KeyFrameCollection.generateChapterMetadata collection)).
Proof.
  apply (@close_then_render
           (KeyFrameCollector.mk []
              [KeyFrame.mk 0 0 48; KeyFrame.mk 1 200 9000] Pending)).
  - reflexivity.
  - repeat constructor.
Defined.

(** ** The renderer: titles *)

Lemma field_values_chapter_title start end_ number doc :
  field_values (str "title=Chapter ")
               (KeyFrameCollection.chapter start end_ number ++ doc)
  = Z.to_N number :: field_values (str "title=Chapter ") doc.
Proof.
  unfold field_values. rewrite split_lines_chapter. cbn [flat_map].
  rewrite field_value_hit. reflexivity.
Qed.

Lemma titles_by_position times : forall (n : nat) start,
  field_values (str "title=Chapter ")
               (records_by_position (Z.of_nat n) start times)
  = map (fun i => N.of_nat (S i)) (seq n (length times)).
Proof.
  induction times as [|t times IH]; intros n start; [reflexivity|].
  cbn [records_by_position length seq map].
  rewrite field_values_chapter_title.
  replace (Z.of_nat n + 1)%Z with (Z.of_nat (S n)) by lia.
  rewrite IH. f_equal; lia.
Qed.

(** X10. For an array of distinct objects the titles of the document,
    read back in order, are the numbers 1, 2, ... up to the number of
    records. *)
Theorem titles_numbered_in_order (l : list KeyFrame.t) :
  NoDup (map KeyFrame.oid l) ->
  field_values (str "title=Chapter ")
    (KeyFrameCollection.generateChapterMetadata (KeyFrameCollection.mk l))
  = map (fun i => N.of_nat (S i)) (seq 0 (length l)).
Proof.
  intros H. rewrite generate_records.
  rewrite field_values_header by reflexivity.
  pose proof (records_distinct [] l 0%N H) as R. cbn [app length] in R.
  rewrite R.
  rewrite (titles_by_position (map KeyFrame.pts_time l) 0 0%N).
  now rewrite length_map.
Qed.

Lemma titles_numbered_in_order_witness :
  field_values (str "title=Chapter ")
    (KeyFrameCollection.generateChapterMetadata
       (KeyFrameCollection.mk
          [KeyFrame.mk 2 200 7; KeyFrame.mk 4 400 8; KeyFrame.mk 9 900 9]))
  = [1; 2; 3]%N.
Proof.
  apply (titles_numbered_in_order
           [KeyFrame.mk 2 200 7; KeyFrame.mk 4 400 8; KeyFrame.mk 9 900 9]).
  repeat constructor; simpl; intuition discriminate.
Defined.

(** ** The completion value is settled once *)

Lemma write_keeps_promise this chunk this' o :
  KeyFrameCollector.write this chunk = Some (this', o) ->
  KeyFrameCollector.completionPromise this'
  = KeyFrameCollector.completionPromise this.
Proof.
  rewrite write_spec.
  destruct (regexp_exec _ 2 _) as [f|]; [|now intros [= <- _]].
  unfold KeyFrameCollector.pass_on.
  destruct (nth 2 (groups f) None) as [flag|]; [|now intros [= <- _]].
  destruct (text_eqb flag (str "1")); [|now intros [= <- _]].
  destruct (nth 1 (groups f) None) as [frameData|]; [|now intros [= <- _]].
  destruct (KeyFrame.new _ frameData); now intros [= <- _].
Qed.

Lemma after_call_settled this c :
  KeyFrameCollector.completionPromise this <> Pending ->
  KeyFrameCollector.completionPromise (after_call this c)
  = KeyFrameCollector.completionPromise this.
Proof.
  intros H. destruct c as [chunk| |reason]; cbn [after_call].
  - destruct (KeyFrameCollector.write this chunk) as [[this' o]|] eqn:E;
      [|reflexivity].
    exact (write_keeps_promise _ _ E).
  - unfold KeyFrameCollector.close. rewrite filterFrames_keep.
    cbn [fst KeyFrameCollector.completionPromise].
    destruct (KeyFrameCollector.completionPromise this);
      cbn [Promise_resolve]; congruence.
  - cbn [KeyFrameCollector.abort KeyFrameCollector.completionPromise].
    destruct (KeyFrameCollector.completionPromise this);
      cbn [Promise_reject]; congruence.
Qed.

(** X11. Once the completion value is settled, by [close] or by [abort],
    no later sequence of [write], [close] and [abort] calls changes it: the
    first settlement stands, and keyframes written afterwards never reach
    it. *)
Theorem completion_value_settled_once
        (calls : list call) (this : KeyFrameCollector.t) :
  KeyFrameCollector.completionPromise this <> Pending ->
  KeyFrameCollector.processingDone (fold_left after_call calls this)
  = KeyFrameCollector.completionPromise this.
Proof.
  revert this. induction calls as [|c calls IH]; intros this H;
    cbn [fold_left]; [reflexivity|].
  unfold KeyFrameCollector.processingDone in *.
  rewrite IH; rewrite (after_call_settled this c H); auto.
Qed.

Lemma completion_value_settled_once_witness :
  KeyFrameCollector.processingDone
    (fold_left after_call
       [Write (frame_block (mkDesc "1" 0 (str "0") 48));
        Write (frame_block (mkDesc "1" 200 (str "5") 9000));
        Close; Abort TypeError]
       (fst (KeyFrameCollector.close KeyFrameCollector.constructor)))
  = Fulfilled (KeyFrameCollection.mk []).
Proof.
  apply (completion_value_settled_once
           [Write (frame_block (mkDesc "1" 0 (str "0") 48));
            Write (frame_block (mkDesc "1" 200 (str "5") 9000));
            Close; Abort TypeError]
           (fst (KeyFrameCollector.close KeyFrameCollector.constructor))).
  discriminate.
Defined.

(** ** Every keyframe collected is an object of its own *)

Lemma write_numbered this chunk this' o :
  KeyFrameCollector.write this chunk = Some (this', o) ->
  numbered this -> numbered this'.
Proof.
  rewrite write_spec. unfold numbered.
  destruct (regexp_exec _ 2 _) as [f|]; [|now intros [= <- _]].
  unfold KeyFrameCollector.pass_on.
  destruct (nth 2 (groups f) None) as [flag|]; [|now intros [= <- _]].
  destruct (text_eqb flag (str "1")); [|now intros [= <- _]].
  destruct (nth 1 (groups f) None) as [frameData|]; [|now intros [= <- _]].
  destruct (KeyFrame.new _ frameData) as [kf|e] eqn:En; [|now intros [= <- _]].
  intros [= <- _] Hn.
  cbn [KeyFrameCollector.set_stringBuffer KeyFrameCollector.push_keyFrame
       KeyFrameCollector.keyFrames] in *.
  apply KeyFrame_new_inv in En as (? & ? & ? & ? & ? & _ & ->).
  rewrite map_app, length_app, Hn. cbn [map length KeyFrame.oid].
  now rewrite Nat.add_1_r, seq_S.
Qed.

Lemma after_call_numbered this c : numbered this -> numbered (after_call this c).
Proof.
  intros H. destruct c as [chunk| |reason]; cbn [after_call].
  - destruct (KeyFrameCollector.write this chunk) as [[this' o]|] eqn:E;
      [|exact H].
    eapply write_numbered; eauto.
  - unfold KeyFrameCollector.close. rewrite filterFrames_keep. exact H.
  - exact H.
Qed.

Lemma NoDup_oid_one_object l :
  NoDup (map KeyFrame.oid l) -> one_object_per_identity l.
Proof.
  induction l as [|x l IH]; intros H f g Hf Hg E; [destruct Hf|].
  cbn [map] in H. inversion H as [|? ? Hx Hl]; subst.
  destruct Hf as [<-|Hf], Hg as [<-|Hg].
  - reflexivity.
  - exfalso. apply Hx. rewrite E. now apply in_map.
  - exfalso. apply Hx. rewrite <- E. now apply in_map.
  - now apply (IH Hl).
Qed.

(** X12. Whatever calls are made on a new collector, its keyframes are
    numbered 0, 1, 2, ... in the order they were made: each is an object of
    its own, so that no two entries of the array are the same object. *)
Theorem collected_keyframes_are_distinct_objects (calls : list call) :
  let this := fold_left after_call calls KeyFrameCollector.constructor in
  numbered this /\
  NoDup (map KeyFrame.oid (KeyFrameCollector.keyFrames this)) /\
  one_object_per_identity (KeyFrameCollector.keyFrames this).
Proof.
  cbv zeta.
  assert (H : numbered (fold_left after_call calls KeyFrameCollector.constructor)).
  { assert (H0 : numbered KeyFrameCollector.constructor) by reflexivity.
    revert H0. generalize KeyFrameCollector.constructor.
    induction calls as [|c calls IH]; intros this H0; cbn [fold_left];
      [exact H0|].
    apply IH, after_call_numbered, H0. }
  assert (Hd : NoDup (map KeyFrame.oid
                        (KeyFrameCollector.keyFrames
                           (fold_left after_call calls
                                      KeyFrameCollector.constructor)))).
  { rewrite H. apply seq_NoDup. }
  auto using NoDup_oid_one_object.
Qed.

(** ** KeyFrame: a field without a number *)

Lemma field_never_numeric_unfold name s :
  field_never_numeric name s =
  (if starts_with name s then no_leading_digit (skipn (length name) s)
   else true)
  && match s with
     | [] => true
     | _ :: s' => field_never_numeric name s'
     end.
Proof. destruct s; reflexivity. Qed.

Lemma never_numeric_occurrence name a d t :
  field_never_numeric name (a ++ name ++ d :: t) = true -> is_digit d = false.
Proof.
  induction a as [|x a IH]; intros H.
  - rewrite field_never_numeric_unfold in H. cbn [app] in H.
    apply andb_true_iff in H as [H _].
    rewrite starts_with_app, skipn_length_app in H.
    now apply negb_true_iff in H.
  - rewrite field_never_numeric_unfold in H.
    apply andb_true_iff in H as [_ H]. exact (IH H).
Qed.

(** X13. When no occurrence of [pts_time=] in a block is followed by a
    digit, as in [pts_time=N/A], or none of [pkt_pos=] is, the constructor
    throws its parse error. *)
Theorem field_without_number_rejected (id : nat) (frameData : text) :
  field_never_numeric (str "pts_time=") frameData = true \/
  field_never_numeric (str "pkt_pos=") frameData = true ->
  KeyFrame.new id frameData = Throw KeyFrame.parse_error.
Proof.
  intros H.
  destruct (KeyFrame_new_cases id frameData) as [[f Hf]|Hf]; [exfalso|exact Hf].
  apply KeyFrame_new_inv in Hf
    as (a & d1 & b & d2 & c & (-> & [N1 D1] & [N2 D2]) & _).
  destruct d1 as [|x1 d1]; [congruence|].
  destruct d2 as [|x2 d2]; [congruence|].
  cbn [forallb] in D1, D2.
  apply andb_true_iff in D1 as [D1 _]. apply andb_true_iff in D2 as [D2 _].
  destruct H as [H|H].
  - apply never_numeric_occurrence in H. congruence.
  - rewrite (app_assoc a), (app_assoc _ (x1 :: d1)), (app_assoc _ b) in H.
    apply never_numeric_occurrence in H. congruence.
Qed.

Lemma field_without_number_rejected_witness :
  KeyFrame.new 0 (str "key_frame=1 pts_time=N/A pkt_pos=48")
  = Throw KeyFrame.parse_error.
Proof.
  apply (field_without_number_rejected
           0 (str "key_frame=1 pts_time=N/A pkt_pos=48")).
  left. reflexivity.
Defined.

(** ** The script: the path of the copy *)

Lemma first_occurrence_unfold pat s :
  first_occurrence pat s =
  if starts_with pat s then Some ([], skipn (length pat) s)
  else
    match s with
    | [] => None
    | c :: s' =>
        match first_occurrence pat s' with
        | Some (b, a) => Some (c :: b, a)
        | None => None
        end
    end.
Proof. destruct s; reflexivity. Qed.

Lemma first_occurrence_head pat rel :
  first_occurrence pat (pat ++ rel) = Some ([], rel).
Proof.
  rewrite first_occurrence_unfold.
  now rewrite starts_with_app, skipn_length_app.
Qed.

Lemma first_occurrence_none pat s :
  occurs pat s = false -> first_occurrence pat s = None.
Proof.
  induction s as [|c s IH]; intros H; rewrite first_occurrence_unfold.
  - now rewrite (occurs_false_starts _ _ H).
  - rewrite (occurs_false_starts _ _ H).
    change (starts_with pat (c :: s) || occurs pat s = false) in H.
    apply orb_false_iff in H as [_ H]. now rewrite (IH H).
Qed.

Lemma GetSubstitution_plain matched b a template :
  occurs (str "$") template = false ->
  GetSubstitution matched b a template = template.
Proof.
  induction template as [|c1 rest IH]; intros H; [reflexivity|].
  change (starts_with (str "$") (c1 :: rest) || occurs (str "$") rest = false)
    in H.
  apply orb_false_iff in H as [H1 H2].
  change (Ascii.eqb "$" c1 && true = false) in H1.
  rewrite andb_true_r, Ascii.eqb_sym in H1.
  cbn [GetSubstitution]. destruct rest as [|c2 t]; [reflexivity|].
  rewrite H1. f_equal. exact (IH H2).
Qed.

(** X14. For a file whose path is the source directory followed by a
    relative part, the destination is the destination directory followed by
    the same relative part, provided the destination directory has no
    dollar sign in it; a path in which the source directory does not occur
    is left as it is. *)
Theorem destPath_mirrors_the_relative_path
        (sourceDir destDir rel : text) :
  occurs (str "$") destDir = false ->
  destPath (sourceDir ++ rel) sourceDir destDir = destDir ++ rel /\
  forall other,
    occurs sourceDir other = false -> destPath other sourceDir destDir = other.
Proof.
  intros H. unfold destPath, String_replace_string. split.
  - rewrite first_occurrence_head. cbn [app].
    now rewrite GetSubstitution_plain.
  - intros other Ho. now rewrite first_occurrence_none.
Qed.

Lemma destPath_mirrors_the_relative_path_witness :
  destPath (str "/media/in/shows/a.mkv") (str "/media/in") (str "/media/out")
  = str "/media/out" ++ str "/shows/a.mkv".
Proof.
  apply (proj1 (@destPath_mirrors_the_relative_path
                  (str "/media/in") (str "/media/out") (str "/shows/a.mkv")
                  eq_refl)).
Defined.
